(** * Seamless loop scroller of [commission.js]

    A shallow embedding of [setupAutoScroll] (src/commission.js, lines
    191-309) and of the browser objects it talks to, followed by the
    properties of the scroller, and then the gallery page around it.

    Numbers.  Every JavaScript number the scroller computes with is finite
    (each [%] and [/] is guarded by a positivity test), so a number is a
    rational [Q] and equality of numbers is [Qeq] ([==]).  The arithmetic
    is given twice.  The listeners of section [Scroller] compute with the
    exact operations of [Q], that is, with the values the expressions of
    the source denote before rounding.  The listeners of module [Double]
    are the same statements with every [+], [-], [*] and [/] rounded to
    the nearest binary64 number, as JavaScript computes them; where
    rounding decides a property (where a sum lands, whether a position
    read back is the position written), the property is stated there.

    Browser.  The container keeps the value assigned to [scrollLeft] as it
    is (no clamping to the scrollable range, no rounding to device pixels).
    Listeners run one at a time, to completion; which event comes next, and
    when a timer or a frame callback runs, is the browser's choice.  *)

From Stdlib Require Import QArith Qround Qabs Qpower Lia Lqa DecimalString.
From stdpp Require Import gmap strings pretty.

Open Scope Q_scope.

(** ** JavaScript arithmetic *)

Module JS.

(** Truncation toward zero of a rational. *)
Definition Qtrunc (q : Q) : Z := Z.quot (Qnum q) (Zpos (Qden q)).

(** The [%] operator on finite numbers with a non-zero divisor: the
    result is [n - d * k] where [k] is [n / d] truncated toward zero, so
    it carries the sign of the dividend. *)
Definition rem (n d : Q) : Q := n - d * inject_Z (Qtrunc (n / d)).

(** [Math.abs(x) > y]. *)
Definition abs_gt (x y : Q) : bool := negb (Qle_bool (Qabs x) y).

(** [x <= 0] and [x > 0] as the tests the source writes. *)
Definition le0 (x : Q) : bool := Qle_bool x 0.
Definition gt0 (x : Q) : bool := negb (Qle_bool x 0).

(** Truthiness of a finite number: only zero is falsy. *)
Definition falsy (x : Q) : bool := Qeq_bool x 0.

(** The value of [Number(...)]: a finite number, or one of the three
    non-finite ones. *)
Inductive number : Type :=
| Finite (q : Q)
| NaN
| PosInfinity
| NegInfinity.

(** [Number.isFinite]. *)
Definition isFinite (x : number) : option Q :=
  match x with
  | Finite q => Some q
  | NaN | PosInfinity | NegInfinity => None
  end.

End JS.

(** ** Browser objects *)

(** [window.localStorage].  Access can be denied (private mode, blocked
    storage) and a write can exceed the quota; both surface as a thrown
    [DOMException]. *)
Module Storage.

Inductive DOMException : Type := SecurityError | QuotaExceededError.

Record t : Type := mk {
  items : gmap string string;
  blocked : bool;
  full : bool
}.

Definition getItem (key : string) (s : t) : DOMException + option string :=
  if blocked s then inl SecurityError else inr (items s !! key).

Definition setItem (key value : string) (s : t) : DOMException + t :=
  if blocked s then inl SecurityError
  else if full s then inl QuotaExceededError
  else inr {| items := <[key := value]> (items s);
              blocked := blocked s; full := full s |}.

End Storage.

(** ** State of one scroller instance

    The first six fields are the [let] variables of the closure created by
    [setupAutoScroll]; the remaining ones are the parts of the browser the
    closure reads and writes. *)
Record state : Type := mkState {
  paused : bool;
  setWidth : Q;
  savedPos : Q;
  autoWrite : bool;
  lastTs : Q;
  persistTimer : option positive;
  (** [container.scrollLeft] *)
  scrollLeft : Q;
  (** every assignment the script made to [container.scrollLeft], newest
      first, each with the value [autoWrite] had at that moment *)
  written : list (bool * Q);
  localStorage : Storage.t;
  (** handles of the pending [setTimeout] callbacks of this closure *)
  timeouts : gset positive;
  (** the handle the next [setTimeout] returns; handles are positive *)
  nextTimeout : positive;
  (** pending [requestAnimationFrame(tick)] registrations *)
  frameCallbacks : nat
}.

Definition set_paused (v : bool) (s : state) : state :=
  mkState v (setWidth s) (savedPos s) (autoWrite s) (lastTs s) (persistTimer s)
    (scrollLeft s) (written s) (localStorage s) (timeouts s) (nextTimeout s)
    (frameCallbacks s).
Definition set_setWidth (v : Q) (s : state) : state :=
  mkState (paused s) v (savedPos s) (autoWrite s) (lastTs s) (persistTimer s)
    (scrollLeft s) (written s) (localStorage s) (timeouts s) (nextTimeout s)
    (frameCallbacks s).
Definition set_savedPos (v : Q) (s : state) : state :=
  mkState (paused s) (setWidth s) v (autoWrite s) (lastTs s) (persistTimer s)
    (scrollLeft s) (written s) (localStorage s) (timeouts s) (nextTimeout s)
    (frameCallbacks s).
Definition set_autoWrite (v : bool) (s : state) : state :=
  mkState (paused s) (setWidth s) (savedPos s) v (lastTs s) (persistTimer s)
    (scrollLeft s) (written s) (localStorage s) (timeouts s) (nextTimeout s)
    (frameCallbacks s).
Definition set_lastTs (v : Q) (s : state) : state :=
  mkState (paused s) (setWidth s) (savedPos s) (autoWrite s) v (persistTimer s)
    (scrollLeft s) (written s) (localStorage s) (timeouts s) (nextTimeout s)
    (frameCallbacks s).
Definition set_persistTimer (v : option positive) (s : state) : state :=
  mkState (paused s) (setWidth s) (savedPos s) (autoWrite s) (lastTs s) v
    (scrollLeft s) (written s) (localStorage s) (timeouts s) (nextTimeout s)
    (frameCallbacks s).
(** An assignment to [container.scrollLeft] made by the script. *)
Definition assign_scrollLeft (v : Q) (s : state) : state :=
  mkState (paused s) (setWidth s) (savedPos s) (autoWrite s) (lastTs s)
    (persistTimer s) v ((autoWrite s, v) :: written s) (localStorage s)
    (timeouts s) (nextTimeout s) (frameCallbacks s).
(** A change of [container.scrollLeft] made by the user. *)
Definition user_scrollLeft (v : Q) (s : state) : state :=
  mkState (paused s) (setWidth s) (savedPos s) (autoWrite s) (lastTs s)
    (persistTimer s) v (written s) (localStorage s) (timeouts s)
    (nextTimeout s) (frameCallbacks s).
Definition set_localStorage (v : Storage.t) (s : state) : state :=
  mkState (paused s) (setWidth s) (savedPos s) (autoWrite s) (lastTs s)
    (persistTimer s) (scrollLeft s) (written s) v (timeouts s) (nextTimeout s)
    (frameCallbacks s).
Definition set_timeouts (v : gset positive) (s : state) : state :=
  mkState (paused s) (setWidth s) (savedPos s) (autoWrite s) (lastTs s)
    (persistTimer s) (scrollLeft s) (written s) (localStorage s) v
    (nextTimeout s) (frameCallbacks s).
Definition set_nextTimeout (v : positive) (s : state) : state :=
  mkState (paused s) (setWidth s) (savedPos s) (autoWrite s) (lastTs s)
    (persistTimer s) (scrollLeft s) (written s) (localStorage s) (timeouts s)
    v (frameCallbacks s).
Definition set_frameCallbacks (v : nat) (s : state) : state :=
  mkState (paused s) (setWidth s) (savedPos s) (autoWrite s) (lastTs s)
    (persistTimer s) (scrollLeft s) (written s) (localStorage s) (timeouts s)
    (nextTimeout s) v.

(** ** Statements that can throw

    A statement runs on a state and either completes or throws; in both
    cases the assignments made so far are kept, as in JavaScript. *)
Inductive completion (A : Type) : Type :=
| Normal (a : A)
| Throw (e : Storage.DOMException).
Arguments Normal {A} a.
Arguments Throw {A} e.

Definition M (A : Type) : Type := state -> completion A * state.

Definition ret {A} (a : A) : M A := fun s => (Normal a, s).
Definition bind {A B} (m : M A) (k : A -> M B) : M B :=
  fun s => match m s with
           | (Normal a, s') => k a s'
           | (Throw e, s') => (Throw e, s')
           end.
Definition gets {A} (f : state -> A) : M A := fun s => (Normal (f s), s).
Definition modify (f : state -> state) : M unit := fun s => (Normal tt, f s).
(** [try { body } catch { handler }] *)
Definition try_catch {A} (body handler : M A) : M A :=
  fun s => match body s with
           | (Normal a, s') => (Normal a, s')
           | (Throw _, s') => handler s'
           end.
Definition when (b : bool) (m : M unit) : M unit := if b then m else ret tt.

#[global] Instance M_ret : MRet M := @ret.
#[global] Instance M_bind : MBind M := fun A B k m => bind m k.

(** ** The scroller *)

Section Scroller.

(** The built-in conversions [Number(...)] (applied to what [getItem]
    returned, [None] being [null]) and [String(...)]. *)
Variable Number : option string -> JS.number.
Variable String : Q -> string.

Definition speedPxPerSecond : Q := 30.
Definition storageKey : string := "commissionScrollPos".
Definition persistDelayMs : Q := 200.

(** The two normalisation functions, with the sums taken exactly; with
    the sums rounded they are [Double.normalizeOffset] and
    [Double.normalizeToMiddleBand] below. *)
Definition normalizeOffset (setWidth value : Q) : Q :=
  if JS.le0 setWidth then 0
  else JS.rem (JS.rem value setWidth + setWidth) setWidth.

Definition normalizeToMiddleBand (setWidth value : Q) : Q :=
  if JS.le0 setWidth then 0
  else setWidth + normalizeOffset setWidth (value - setWidth).

Definition setScrollSafely (value : Q) : M unit :=
  modify (set_autoWrite true);;
  modify (assign_scrollLeft value);;
  modify (set_autoWrite false).

(** [localStorage.getItem(key)] and [localStorage.setItem(key, value)]. *)
Definition getItem (key : string) : M (option string) :=
  fun s => match Storage.getItem key (localStorage s) with
           | inl e => (Throw e, s)
           | inr v => (Normal v, s)
           end.
Definition setItem (key value : string) : M unit :=
  fun s => match Storage.setItem key value (localStorage s) with
           | inl e => (Throw e, s)
           | inr ls => (Normal tt, set_localStorage ls s)
           end.

(** [setTimeout(callback, delay)]: registers the callback under a fresh
    handle and returns the handle.  When the callback runs is up to the
    browser, so the delay is not kept. *)
Definition setTimeout (delay : Q) : M positive :=
  fun s => (Normal (nextTimeout s),
            set_nextTimeout (Pos.succ (nextTimeout s))
              (set_timeouts ({[nextTimeout s]} ∪ timeouts s) s)).
Definition clearTimeout (id : positive) : M unit :=
  modify (fun s => set_timeouts (timeouts s ∖ {[id]}) s).
Definition requestAnimationFrame : M unit :=
  modify (fun s => set_frameCallbacks (S (frameCallbacks s)) s).

Definition persistPosition : M unit :=
  try_catch
    (pos ← gets savedPos;
     setItem storageKey (String pos))
    (mret tt).

(** The callback [schedulePersist] hands to [setTimeout]. *)
Definition persistCallback : M unit :=
  modify (set_persistTimer None);;
  persistPosition.

Definition schedulePersist : M unit :=
  timer ← gets persistTimer;
  match timer with Some id => clearTimeout id | None => mret tt end;;
  id ← setTimeout persistDelayMs;
  modify (set_persistTimer (Some id)).

Definition syncFromCurrentScroll : M unit :=
  w ← gets setWidth;
  if JS.le0 w then mret tt
  else
    x ← gets scrollLeft;
    let normalized := normalizeToMiddleBand w x in
    x' ← gets scrollLeft;
    when (JS.abs_gt (normalized - x') 1) (setScrollSafely normalized);;
    w' ← gets setWidth;
    modify (set_savedPos (normalizeOffset w' (normalized - w'))).

(** The closure variables as their [let] declarations initialise them,
    in a page whose container is at [scroll0]. *)
Definition initial (offsetWidth scroll0 : Q) (ls : Storage.t)
    (next : positive) : state :=
  {| paused := false; setWidth := offsetWidth; savedPos := 0;
     autoWrite := false; lastTs := 0; persistTimer := None;
     scrollLeft := scroll0; written := []; localStorage := ls;
     timeouts := ∅; nextTimeout := next; frameCallbacks := 0 |}.

(** The statements of [setupAutoScroll] after the declarations.  The
    [addEventListener] calls are represented by [dispatch] below. *)
Definition setupBody : M unit :=
  try_catch
    (stored ← getItem storageKey;
     let parsed := Number stored in
     match JS.isFinite parsed with
     | Some q => modify (set_savedPos q)
     | None => mret tt
     end)
    (mret tt);;
  w ← gets setWidth;
  pos ← gets savedPos;
  modify (set_savedPos (normalizeOffset w pos));;
  w ← gets setWidth;
  pos ← gets savedPos;
  when (JS.gt0 w) (setScrollSafely (w + pos));;
  requestAnimationFrame.

(** [setupAutoScroll(referenceSet)]: [container] is the [scrollLeft] of
    the element [#commission-scroll], or [None] when there is no such
    element, and [offsetWidth] is [referenceSet.offsetWidth]. *)
Definition setupAutoScroll (container : option Q) (offsetWidth : Q)
    (ls : Storage.t) (next : positive) : option (completion unit * state) :=
  match container with
  | None => None
  | Some scroll0 => Some (setupBody (initial offsetWidth scroll0 ls next))
  end.

Definition onMouseEnter : M unit := modify (set_paused true).
Definition onMouseLeave : M unit := modify (set_paused false).

Definition onScroll : M unit :=
  a ← gets autoWrite;
  w ← gets setWidth;
  if a || JS.le0 w then mret tt
  else syncFromCurrentScroll;; schedulePersist.

(** The [resize] listener; [offsetWidth] is what [referenceSet.offsetWidth]
    measures at that moment. *)
Definition onResize (offsetWidth : Q) : M unit :=
  prevWidth ← gets setWidth;
  modify (set_setWidth offsetWidth);;
  w ← gets setWidth;
  if JS.le0 w then mret tt
  else
    when (JS.gt0 prevWidth)
      (pos ← gets savedPos;
       modify (set_savedPos ((pos / prevWidth) * w)));;
    pos ← gets savedPos;
    modify (set_savedPos (normalizeOffset w pos));;
    pos ← gets savedPos;
    setScrollSafely (w + pos).

Definition onPageHide : M unit :=
  timer ← gets persistTimer;
  match timer with
  | Some id => clearTimeout id;; modify (set_persistTimer None)
  | None => mret tt
  end;;
  persistPosition.

(** The [visibilitychange] listener; [hidden] tells whether
    [document.visibilityState === 'hidden']. *)
Definition onVisibilityChange (hidden : bool) : M unit :=
  if hidden then
    timer ← gets persistTimer;
    match timer with
    | Some id => clearTimeout id;; modify (set_persistTimer None)
    | None => mret tt
    end;;
    persistPosition
  else mret tt.

Definition tick (ts : Q) : M unit :=
  last ← gets lastTs;
  when (JS.falsy last) (modify (set_lastTs ts));;
  last ← gets lastTs;
  let deltaSeconds := (ts - last) / 1000 in
  modify (set_lastTs ts);;
  p ← gets paused;
  w ← gets setWidth;
  when (negb p && JS.gt0 w)
    (pos ← gets savedPos;
     modify (set_savedPos
               (normalizeOffset w (pos + speedPxPerSecond * deltaSeconds)));;
     pos ← gets savedPos;
     setScrollSafely (w + pos));;
  requestAnimationFrame.

(** ** What the browser delivers to the scroller

    [UserScroll x] is the user moving the container to [x]; the [scroll]
    event that reports a move is [ScrollEvent].  [Frame ts] runs one
    pending animation-frame callback with timestamp [ts], [TimerFired id]
    is the timer [id] coming due, and [StorageMode] is storage becoming
    blocked or full (or usable again) between two listeners. *)
Inductive event : Type :=
| MouseEnter
| MouseLeave
| UserScroll (x : Q)
| ScrollEvent
| Resize (offsetWidth : Q)
| PageHide
| VisibilityChange (hidden : bool)
| Frame (ts : Q)
| TimerFired (id : positive)
| StorageMode (blocked full : bool).

Definition dispatch (e : event) : M unit :=
  match e with
  | MouseEnter => onMouseEnter
  | MouseLeave => onMouseLeave
  | UserScroll x => modify (user_scrollLeft x)
  | ScrollEvent => onScroll
  | Resize offsetWidth => onResize offsetWidth
  | PageHide => onPageHide
  | VisibilityChange hidden => onVisibilityChange hidden
  | Frame ts =>
      n ← gets frameCallbacks;
      match n with
      | O => mret tt
      | S n' => modify (set_frameCallbacks n');; tick ts
      end
  | TimerFired id =>
      pending ← gets timeouts;
      if decide (id ∈ pending)
      then clearTimeout id;; persistCallback
      else mret tt
  | StorageMode b f =>
      modify (fun s =>
        set_localStorage
          {| Storage.items := Storage.items (localStorage s);
             Storage.blocked := b; Storage.full := f |} s)
  end.

(** In [dispatch], a frame callback is taken off the browser's list before
    it runs, and so is a timer that comes due; a handle that is no longer
    pending fires nothing.

    [exec] is the state a listener leaves behind, [run] the state after a
    list of events delivered in order. *)
Definition exec (e : event) (s : state) : state := snd (dispatch e s).

Definition run (es : list event) (s : state) : state :=
  fold_left (fun s e => exec e s) es s.

End Scroller.

(** ** The scroller in binary64 arithmetic

    A JavaScript number is a binary64 floating-point number, and the
    result of [+], [-], [*] and [/] is the exact result rounded to the
    nearest such number, ties going to the one with an even significand.
    [%] needs no rounding: the remainder of two binary64 numbers is a
    binary64 number.  Results beyond the largest finite number (about
    1.8e308) are not modelled; widths, positions and timestamps are far
    from it. *)
Module Double.

(** The integer [k] with [2 ^ k <= q < 2 ^ (k + 1)], for [q > 0]. *)
Definition ilog2 (q : Q) : Z :=
  let k := (Z.log2 (Qnum q) - Z.log2 (Zpos (Qden q)))%Z in
  if Qle_bool (2 ^ k) q then k else (k - 1)%Z.

(** The nearest integer, a tie going to the even one. *)
Definition rne (q : Q) : Z :=
  let f := Qfloor q in
  match Qcompare (q - inject_Z f) (1 # 2) with
  | Lt => f
  | Gt => (f + 1)%Z
  | Eq => if Z.even f then f else (f + 1)%Z
  end.

(** The exponent of the last bit of the 53-bit significand of a positive
    number; below [2 ^ -1022] the numbers are spaced [2 ^ -1074] apart. *)
Definition ulp_exponent (a : Q) : Z := Z.max (ilog2 a - 52) (-1074).

Definition round_pos (a : Q) : Q :=
  inject_Z (rne (a / 2 ^ ulp_exponent a)) * 2 ^ ulp_exponent a.

(** The binary64 number nearest to [q]. *)
Definition round (q : Q) : Q :=
  match Qnum q with
  | Z0 => 0
  | Zpos _ => round_pos q
  | Zneg _ => - round_pos (- q)
  end.

(** The operators [+], [-], [*] and [/]. *)
Definition add (a b : Q) : Q := round (a + b).
Definition sub (a b : Q) : Q := round (a - b).
Definition mul (a b : Q) : Q := round (a * b).
Definition div (a b : Q) : Q := round (a / b).

(** A rational that is a finite binary64 number: rounding leaves it,
    and it is below [2 ^ 1024]. *)
Definition representable (q : Q) : Prop :=
  round q == q /\ Qabs q < 2 ^ 1024.

Section Scroller.

Variable Number : option string -> JS.number.
Variable String : Q -> string.

Definition normalizeOffset (setWidth value : Q) : Q :=
  if JS.le0 setWidth then 0
  else JS.rem (add (JS.rem value setWidth) setWidth) setWidth.

Definition normalizeToMiddleBand (setWidth value : Q) : Q :=
  if JS.le0 setWidth then 0
  else add setWidth (normalizeOffset setWidth (sub value setWidth)).

Definition syncFromCurrentScroll : M unit :=
  w ← gets setWidth;
  if JS.le0 w then mret tt
  else
    x ← gets scrollLeft;
    let normalized := normalizeToMiddleBand w x in
    x' ← gets scrollLeft;
    when (JS.abs_gt (sub normalized x') 1) (setScrollSafely normalized);;
    w' ← gets setWidth;
    modify (set_savedPos (normalizeOffset w' (sub normalized w'))).

Definition setupBody : M unit :=
  try_catch
    (stored ← getItem storageKey;
     let parsed := Number stored in
     match JS.isFinite parsed with
     | Some q => modify (set_savedPos q)
     | None => mret tt
     end)
    (mret tt);;
  w ← gets setWidth;
  pos ← gets savedPos;
  modify (set_savedPos (normalizeOffset w pos));;
  w ← gets setWidth;
  pos ← gets savedPos;
  when (JS.gt0 w) (setScrollSafely (add w pos));;
  requestAnimationFrame.

Definition setupAutoScroll (container : option Q) (offsetWidth : Q)
    (ls : Storage.t) (next : positive) : option (completion unit * state) :=
  match container with
  | None => None
  | Some scroll0 => Some (setupBody (initial offsetWidth scroll0 ls next))
  end.

Definition onScroll : M unit :=
  a ← gets autoWrite;
  w ← gets setWidth;
  if a || JS.le0 w then mret tt
  else syncFromCurrentScroll;; schedulePersist.

Definition onResize (offsetWidth : Q) : M unit :=
  prevWidth ← gets setWidth;
  modify (set_setWidth offsetWidth);;
  w ← gets setWidth;
  if JS.le0 w then mret tt
  else
    when (JS.gt0 prevWidth)
      (pos ← gets savedPos;
       modify (set_savedPos (mul (div pos prevWidth) w)));;
    pos ← gets savedPos;
    modify (set_savedPos (normalizeOffset w pos));;
    pos ← gets savedPos;
    setScrollSafely (add w pos).

Definition tick (ts : Q) : M unit :=
  last ← gets lastTs;
  when (JS.falsy last) (modify (set_lastTs ts));;
  last ← gets lastTs;
  let deltaSeconds := div (sub ts last) 1000 in
  modify (set_lastTs ts);;
  p ← gets paused;
  w ← gets setWidth;
  when (negb p && JS.gt0 w)
    (pos ← gets savedPos;
     modify (set_savedPos
               (normalizeOffset w
                  (add pos (mul speedPxPerSecond deltaSeconds))));;
     pos ← gets savedPos;
     setScrollSafely (add w pos));;
  requestAnimationFrame.

(** The listeners that do no arithmetic are those of section
    [Scroller]. *)
Definition dispatch (e : event) : M unit :=
  match e with
  | MouseEnter => onMouseEnter
  | MouseLeave => onMouseLeave
  | UserScroll x => modify (user_scrollLeft x)
  | ScrollEvent => onScroll
  | Resize offsetWidth => onResize offsetWidth
  | PageHide => onPageHide String
  | VisibilityChange hidden => onVisibilityChange String hidden
  | Frame ts =>
      n ← gets frameCallbacks;
      match n with
      | O => mret tt
      | S n' => modify (set_frameCallbacks n');; tick ts
      end
  | TimerFired id =>
      pending ← gets timeouts;
      if decide (id ∈ pending)
      then clearTimeout id;; persistCallback String
      else mret tt
  | StorageMode b f =>
      modify (fun s =>
        set_localStorage
          {| Storage.items := Storage.items (localStorage s);
             Storage.blocked := b; Storage.full := f |} s)
  end.

Definition exec (e : event) (s : state) : state := snd (dispatch e s).

Definition run (es : list event) (s : state) : state :=
  fold_left (fun s e => exec e s) es s.

End Scroller.

End Double.

(** ** Predicates on states *)

(** The visible position is the middle-band image of the logical offset. *)
Definition band_anchored (s : state) : Prop :=
  scrollLeft s == setWidth s + savedPos s.

(** The pending debounce timers are exactly the one [persistTimer] names. *)
Definition single_slot (s : state) : Prop :=
  timeouts s = match persistTimer s with
               | Some id => {[id]}
               | None => ∅
               end.

(** The handle [persistTimer] names was issued in the past, so the next
    [setTimeout] returns a different one. *)
Definition slot_issued (s : state) : Prop :=
  forall id, persistTimer s = Some id -> (id < nextTimeout s)%positive.

(** The offset a resize to a positive width starts from: rescaled when
    there was a positive width before, untouched otherwise. *)
Definition rescaled (offsetWidth : Q) (s : state) : Q :=
  if JS.gt0 (setWidth s)
  then (savedPos s / setWidth s) * offsetWidth
  else savedPos s.

(** An event that does not measure a positive band width. *)
Definition measures_no_width (e : event) : Prop :=
  match e with
  | Resize offsetWidth => offsetWidth <= 0
  | _ => True
  end.

(** The user moving the container, or the report of such a move. *)
Definition is_scrolling (e : event) : Prop :=
  match e with
  | UserScroll _ | ScrollEvent => True
  | _ => False
  end.

(** ** Conversions for closed examples

    Stand-ins for [Number] and [String] that agree with JavaScript on
    [null], on the empty string and on integers written in decimal (of any
    other number [String] prints the integer part only), which is all the
    closed examples below store.  No general statement depends on them. *)
Module Sample.

Definition Number (stored : option string) : JS.number :=
  match stored with
  | None => JS.Finite 0
  | Some text =>
      match NilEmpty.uint_of_string text with
      | Some digits => JS.Finite (inject_Z (Z.of_uint digits))
      | None => JS.NaN
      end
  end.

Definition String (value : Q) : string :=
  NilZero.string_of_int (Z.to_int (Qfloor value)).

Definition storage (text : option string) (blocked full : bool) : Storage.t :=
  {| Storage.items := match text with
                      | Some t => {[ storageKey := t ]}
                      | None => ∅
                      end;
     Storage.blocked := blocked; Storage.full := full |}.

(** A scroller over bands of width 1000, at offset [pos], showing
    [scroll], whose previous frame came at 5000 ms. *)
Definition scroller (hovered : bool) (pos scroll : Q) : state :=
  {| paused := hovered; setWidth := 1000; savedPos := pos;
     autoWrite := false; lastTs := 5000; persistTimer := None;
     scrollLeft := scroll; written := [];
     localStorage := storage None false false;
     timeouts := ∅; nextTimeout := 1; frameCallbacks := 1 |}.

End Sample.


(** ** The gallery page around the scroller

    The rest of commission.js: loading the commission list, rendering the
    three bands, waiting for the images of the middle band before the
    scroller is set up, and the lightbox. *)

(** data/data.json as the page reads it.  A commission is an object whose
    [title] and [imageCount] may be missing.  An element of the list is
    such an object or [null]; a number, a string, a boolean or an array
    in that place has no [imageCount] and is treated as an object without
    one.  The value of [commissions] is classed by what the page does
    with it:
    - [Falsy]: the property is missing, or it is [null], [false], [0] or
      the empty string;
    - [Items l]: an array with the elements [l]; a non-empty string is
      iterated character by character, which have no [imageCount], and an
      object whose [length] is [0] is taken for an empty list;
    - [NotIterable]: [true], a number other than [0], or any other
      object, over which [for ... of] throws a [TypeError]. *)
Module Data.

Record commission : Type := mkCommission {
  slug : string;
  title : option string;
  imageCount : option Q
}.

Inductive commissionList : Type :=
| Falsy
| Items (elements : list (option commission))
| NotIterable.

Record appData : Type := mkAppData {
  commissions : commissionList
}.

End Data.

(** An element of the global [images]. *)
Module Entry.

Record t : Type := mk {
  slug : string;
  title : string;
  images : list string
}.

End Entry.

(** What [response.json()] comes to: the body is not JSON, it is the
    JSON value [null], or it is another JSON value.  Of a value that is
    not an object (a number, a string, a boolean, an array) the property
    [commissions] is missing, as of an object without it. *)
Inductive parsed : Type :=
| Malformed
| JsonNull
| Json (appData : Data.appData).

(** What [fetch('data/data.json')] comes to: the request is rejected, or
    it is answered with a status that is [ok] or not, and with a body. *)
Inductive fetched : Type :=
| Rejected
| Answered (ok : bool) (body : parsed).

(** An [img] element of a band; its click listener opens the lightbox on
    [src]. *)
Record img : Type := mkImg {
  alt : string;
  className : string;
  src : string
}.

(** The page: the address it is at, whether [#preloader],
    [#commission-container] and [#lightbox] carry the class [hidden], the
    global [images], the children of [#commission-scroll] (bands of groups
    of images), the [src] of [#lightbox-image], the counters of
    [renderHorizontalScroll], the images of the middle band that were
    given [load] and [error] listeners, how many times [setupAutoScroll]
    was called, and whether [setupEventListeners] has installed the
    listeners of the home button, the close button, the lightbox and the
    keyboard. *)
Record page : Type := mkPage {
  href : string;
  preloaderHidden : bool;
  containerHidden : bool;
  images : list Entry.t;
  bands : list (list (list img));
  loaded : nat;
  total : nat;
  listening : list nat;
  scrollers : nat;
  lightboxHidden : bool;
  lightboxSrc : string;
  eventListeners : bool
}.

(** How an [async] function ends: it returns, or it throws and its
    promise is rejected (here with the [TypeError] of reading a property
    of [null] or of iterating what is not iterable).  Either way the
    page is as the statements that ran left it. *)
Inductive outcome : Type :=
| Returned (p : page)
| Thrown (p : page).

(** The page as commission.html delivers it. *)
Definition blank : page :=
  {| href := "commission.html"; preloaderHidden := false;
     containerHidden := true; images := []; bands := [];
     loaded := 0; total := 0; listening := []; scrollers := 0;
     lightboxHidden := true; lightboxSrc := ""; eventListeners := false |}.

Definition navigate (url : string) (p : page) : page :=
  mkPage url (preloaderHidden p) (containerHidden p) (images p) (bands p)
    (loaded p) (total p) (listening p) (scrollers p) (lightboxHidden p)
    (lightboxSrc p) (eventListeners p).
Definition set_images (v : list Entry.t) (p : page) : page :=
  mkPage (href p) (preloaderHidden p) (containerHidden p) v (bands p)
    (loaded p) (total p) (listening p) (scrollers p) (lightboxHidden p)
    (lightboxSrc p) (eventListeners p).
Definition reveal (p : page) : page :=
  mkPage (href p) true false (images p) (bands p)
    (loaded p) (total p) (listening p) (scrollers p) (lightboxHidden p)
    (lightboxSrc p) (eventListeners p).
Definition set_bands (v : list (list (list img))) (p : page) : page :=
  mkPage (href p) (preloaderHidden p) (containerHidden p) (images p) v
    (loaded p) (total p) (listening p) (scrollers p) (lightboxHidden p)
    (lightboxSrc p) (eventListeners p).
Definition set_counters (l t : nat) (ls : list nat) (p : page) : page :=
  mkPage (href p) (preloaderHidden p) (containerHidden p) (images p) (bands p)
    l t ls (scrollers p) (lightboxHidden p) (lightboxSrc p)
    (eventListeners p).
Definition set_loaded (v : nat) (p : page) : page :=
  mkPage (href p) (preloaderHidden p) (containerHidden p) (images p) (bands p)
    v (total p) (listening p) (scrollers p) (lightboxHidden p)
    (lightboxSrc p) (eventListeners p).
Definition listen (i : nat) (p : page) : page :=
  mkPage (href p) (preloaderHidden p) (containerHidden p) (images p) (bands p)
    (loaded p) (total p) (listening p ++ [i]) (scrollers p)
    (lightboxHidden p) (lightboxSrc p) (eventListeners p).
(** A call of [setupAutoScroll(setB)]. *)
Definition start_scroller (p : page) : page :=
  mkPage (href p) (preloaderHidden p) (containerHidden p) (images p) (bands p)
    (loaded p) (total p) (listening p) (S (scrollers p))
    (lightboxHidden p) (lightboxSrc p) (eventListeners p).
Definition set_lightbox (hidden : bool) (source : string) (p : page) : page :=
  mkPage (href p) (preloaderHidden p) (containerHidden p) (images p) (bands p)
    (loaded p) (total p) (listening p) (scrollers p) hidden source
    (eventListeners p).

(** [!commission.imageCount || commission.imageCount <= 0] *)
Definition skipped (commission : Data.commission) : bool :=
  match Data.imageCount commission with
  | None => true
  | Some n => JS.falsy n || JS.le0 n
  end.

(** [`${basePath}${i}.webp`] for an integer [i]. *)
Definition imagePath (basePath : string) (i : Z) : string :=
  basePath +:+ pretty i +:+ ".webp".

(** [for (let i = 1; i <= commission.imageCount; i++) push(...)], from
    [i] on; [fuel] bounds the number of rounds. *)
Fixpoint pushImages (fuel : nat) (basePath : string) (imageCount : Q)
    (i : Z) (commissionImages : list string) : list string :=
  if Qle_bool (inject_Z i) imageCount then
    match fuel with
    | O => commissionImages
    | S fuel' =>
        pushImages fuel' basePath imageCount (i + 1)
          (commissionImages ++ [imagePath basePath i])
    end
  else commissionImages.

(** [commission.title || commission.slug] *)
Definition titleOf (commission : Data.commission) : string :=
  match Data.title commission with
  | Some t => if String.eqb t "" then Data.slug commission else t
  | None => Data.slug commission
  end.

(** One round of [for (const commission of appData.commissions)]. *)
Definition addCommission (images : list Entry.t)
    (commission : Data.commission) : list Entry.t :=
  if skipped commission then images
  else
    let basePath := "data/commission/" +:+ Data.slug commission +:+ "/" in
    let imageCount := default 0 (Data.imageCount commission) in
    let commissionImages :=
      pushImages (Z.to_nat (Qfloor imageCount)) basePath imageCount 1 [] in
    images ++ [{| Entry.slug := Data.slug commission;
                  Entry.title := titleOf commission;
                  Entry.images := commissionImages |}].

Definition buildSet (images : list Entry.t) : list (list img) :=
  (fun commission =>
     imap (fun imgIndex source =>
             {| alt := Entry.title commission +:+ " "
                       +:+ pretty (Z.of_nat imgIndex + 1)%Z;
                className := "commission-image fade-on-load";
                src := source |})
          (Entry.images commission)) <$> images.

Definition onImgReady (p : page) : page :=
  let p := set_loaded (S (loaded p)) p in
  if (total p <=? loaded p)%nat then start_scroller p else p.

(** [renderHorizontalScroll()]; [complete i] tells whether the [i]-th image
    of the middle band is already [complete] when the loop reaches it. *)
Definition renderHorizontalScroll (complete : nat -> bool) (p : page) : page :=
  let setA := buildSet (images p) in
  let setB := buildSet (images p) in
  let setC := buildSet (images p) in
  let p := set_bands [setA; setB; setC] p in
  let allImgs := concat setB in
  let p := set_counters 0 (length allImgs) [] p in
  if (total p =? 0)%nat then start_scroller p
  else
    fold_left
      (fun p i => if complete i then onImgReady p else listen i p)
      (seq 0 (length allImgs)) p.

(** [for (const commission of appData.commissions) ...] over the
    elements of an array: the rounds up to the first [null], on which
    reading [imageCount] throws.  The result tells whether it threw, and
    the global [images] as the rounds left it. *)
Fixpoint forCommissions (elements : list (option Data.commission))
    (images : list Entry.t) : bool * list Entry.t :=
  match elements with
  | [] => (false, images)
  | None :: _ => (true, images)
  | Some commission :: rest =>
      forCommissions rest (addCommission images commission)
  end.

(** [loadCommissionImages()] on what the fetch came to.  The [try] covers
    the request and the parsing of the body only. *)
Definition loadCommissionImages (response : fetched)
    (complete : nat -> bool) (p : page) : outcome :=
  match response with
  | Rejected | Answered false _ | Answered true Malformed =>
      Returned (navigate "index.html" p)
  | Answered true JsonNull => Thrown p
  | Answered true (Json appData) =>
      match Data.commissions appData with
      | Data.Falsy | Data.Items [] => Returned (navigate "index.html" p)
      | Data.NotIterable => Thrown p
      | Data.Items elements =>
          match forCommissions elements (images p) with
          | (true, images) => Thrown (set_images images p)
          | (false, images) =>
              let p := set_images images p in
              if (length images =? 0)%nat
              then Returned (navigate "index.html" p)
              else Returned (renderHorizontalScroll complete (reveal p))
          end
      end
  end.

Definition openLightbox (source : string) (p : page) : page :=
  set_lightbox false source p.

Definition closeLightbox (p : page) : page :=
  set_lightbox true (lightboxSrc p) p.

(** What the listeners of the page are given: clicks on the home button,
    on the close button, somewhere on the lightbox (on the element whose
    id is [targetId]) and on the image [k] of group [g] of band [b]; a key
    going down; an image of the middle band settling ([load] or
    [error]). *)
Inductive pageEvent : Type :=
| HomeClick
| CloseClick
| LightboxClick (targetId : string)
| KeyDown (key : string)
| ImageClick (b g k : nat)
| ImageSettled (i : nat).

Definition imageAt (b g k : nat) (p : page) : option img :=
  band ← bands p !! b; group ← band !! g; group !! k.

(** [setupEventListeners()] *)
Definition setupEventListeners (p : page) : page :=
  mkPage (href p) (preloaderHidden p) (containerHidden p) (images p) (bands p)
    (loaded p) (total p) (listening p) (scrollers p) (lightboxHidden p)
    (lightboxSrc p) true.

(** The listeners [setupEventListeners] and [renderHorizontalScroll]
    install; those of the former are there once it has run. *)
Definition handle (e : pageEvent) (p : page) : page :=
  match e with
  | HomeClick =>
      if eventListeners p then navigate "index.html" p else p
  | CloseClick =>
      if eventListeners p then closeLightbox p else p
  | LightboxClick targetId =>
      if eventListeners p && String.eqb targetId "lightbox"
      then closeLightbox p else p
  | KeyDown key =>
      if eventListeners p && String.eqb key "Escape"
         && negb (lightboxHidden p)
      then closeLightbox p else p
  | ImageClick b g k =>
      match imageAt b g k p with
      | Some image => openLightbox (src image) p
      | None => p
      end
  | ImageSettled i =>
      if decide (i ∈ listening p) then onImgReady p else p
  end.

(** [init()]: the page once [init] has ended.  When
    [loadCommissionImages] throws, so does [init], before it reaches
    [setupEventListeners]. *)
Definition init (response : fetched) (complete : nat -> bool) : page :=
  match loadCommissionImages response complete blank with
  | Returned p => setupEventListeners p
  | Thrown p => p
  end.

(** The page after a list of events. *)

Definition browse (es : list pageEvent) (p : page) : page :=
  fold_left (fun p e => handle e p) es p.

(** The entry a commission with images is listed as: its images are
    numbered from 1 to the integer part of [imageCount]. *)
Definition listed (commission : Data.commission) : Entry.t :=
  {| Entry.slug := Data.slug commission;
     Entry.title := titleOf commission;
     Entry.images :=
       imagePath ("data/commission/" +:+ Data.slug commission +:+ "/")
         <$> seqZ 1 (Qfloor (default 0 (Data.imageCount commission))) |}.

(** Whether a list has a [null] among its elements. *)
Definition hasNull (elements : list (option Data.commission)) : bool :=
  existsb (fun element => if element is None then true else false) elements.

(** Whether the data makes [loadCommissionImages] throw: the body is
    [null], or [commissions] is not iterable, or one of its elements is
    [null]. *)
Definition throws (response : fetched) : bool :=
  match response with
  | Answered true JsonNull => true
  | Answered true (Json appData) =>
      match Data.commissions appData with
      | Data.NotIterable => true
      | Data.Items elements => hasNull elements
      | Data.Falsy => false
      end
  | _ => false
  end.

(** The commissions of a response the page can show. *)
Definition shown (response : fetched) : list Data.commission :=
  match response with
  | Answered true (Json appData) =>
      match Data.commissions appData with
      | Data.Items elements =>
          if hasNull elements then []
          else filter (fun commission => skipped commission = false)
                 (omap id elements)
      | _ => []
      end
  | _ => []
  end.

(** The images reported as settled by a list of events, in order. *)
Definition settlings (es : list pageEvent) : list nat :=
  es ≫= fun e => match e with ImageSettled i => [i] | _ => [] end.

(** The paths of all the images of the gallery. *)
Definition galleryPaths (p : page) : list string :=
  concat (Entry.images <$> images p).

(** ** Facts about truncation and [%] *)

Section RemFacts.

Lemma Qtrunc_floor (q : Q) : 0 <= q -> JS.Qtrunc q = Qfloor q.
Proof.
  destruct q as [n d]. unfold Qle, JS.Qtrunc, Qfloor. simpl. intros H.
  apply Z.quot_div_nonneg; lia.
Qed.

Lemma Qtrunc_ceiling (q : Q) : q <= 0 -> JS.Qtrunc q = Qceiling q.
Proof.
  destruct q as [n d]. unfold Qle, JS.Qtrunc, Qceiling, Qfloor. simpl.
  intros H.
  replace n with (- - n)%Z at 1 by lia.
  rewrite Z.quot_opp_l by lia.
  f_equal. apply Z.quot_div_nonneg; lia.
Qed.

#[global] Instance Qtrunc_Proper : Proper (Qeq ==> eq) JS.Qtrunc.
Proof.
  intros x y E.
  destruct (Qlt_le_dec x 0) as [Hx | Hx].
  - rewrite !Qtrunc_ceiling; [now rewrite E | rewrite <- E; lra | lra].
  - rewrite !Qtrunc_floor; [now rewrite E | rewrite <- E; lra | lra].
Qed.

#[global] Instance rem_Proper : Proper (Qeq ==> Qeq ==> Qeq) JS.rem.
Proof.
  intros a a' Ea b b' Eb. unfold JS.rem.
  assert (E : a / b == a' / b') by now rewrite Ea, Eb.
  now rewrite (Qtrunc_Proper _ _ E), Ea, Eb.
Qed.

Variables n d : Q.
Hypothesis d_pos : 0 < d.

Lemma div_mul_cancel : d * (n / d) == n.
Proof. apply Qmult_div_r. lra. Qed.

(** A non-negative dividend leaves a remainder in [[0, d)]. *)
Lemma rem_nonneg : 0 <= n -> 0 <= JS.rem n d /\ JS.rem n d < d.
Proof.
  intros Hn. unfold JS.rem.
  assert (Hq : 0 <= n / d).
  { apply Qle_shift_div_l; lra. }
  rewrite (Qtrunc_floor _ Hq).
  pose proof (Qfloor_le (n / d)) as Hlo.
  pose proof (Qlt_floor (n / d)) as Hhi.
  rewrite inject_Z_plus in Hhi.
  pose proof div_mul_cancel as E.
  set (q := n / d) in *. set (k := inject_Z (Qfloor q)) in *.
  change (inject_Z 1) with 1 in Hhi.
  split; nra.
Qed.

(** A non-positive dividend leaves a remainder in [(-d, 0]]. *)
Lemma rem_nonpos : n <= 0 -> - d < JS.rem n d /\ JS.rem n d <= 0.
Proof.
  intros Hn. unfold JS.rem.
  assert (Hq : n / d <= 0).
  { apply Qle_shift_div_r; lra. }
  rewrite (Qtrunc_ceiling _ Hq).
  pose proof (Qle_ceiling (n / d)) as Hhi.
  pose proof (Qceiling_lt (n / d)) as Hlo.
  unfold Zminus in Hlo. rewrite inject_Z_plus in Hlo.
  pose proof div_mul_cancel as E.
  set (q := n / d) in *. set (k := inject_Z (Qceiling q)) in *.
  change (inject_Z (- (1))) with (-1) in Hlo.
  split; nra.
Qed.

(** In every case the remainder is strictly between [-d] and [d]. *)
Lemma rem_bounds : - d < JS.rem n d /\ JS.rem n d < d.
Proof.
  destruct (Qlt_le_dec n 0) as [H | H].
  - destruct rem_nonpos; lra.
  - destruct rem_nonneg; lra.
Qed.

(** A value already in [[0, d)] is its own remainder. *)
Lemma rem_small : 0 <= n -> n < d -> JS.rem n d == n.
Proof.
  intros H0 H1. unfold JS.rem.
  assert (Hq : 0 <= n / d) by (apply Qle_shift_div_l; lra).
  rewrite (Qtrunc_floor _ Hq).
  assert (Hk : Qfloor (n / d) = 0%Z).
  { pose proof (Qfloor_le (n / d)) as Hlo.
    pose proof (Qlt_floor (n / d)) as Hhi.
    assert (Hq1 : n / d < 1) by (apply Qlt_shift_div_r; lra).
    assert (A : inject_Z (Qfloor (n / d)) < inject_Z 1) by (change (inject_Z 1) with 1; lra).
    assert (B : inject_Z (-1) < inject_Z (Qfloor (n / d))).
    { rewrite inject_Z_plus in Hhi. change (inject_Z 1) with 1 in Hhi.
      change (inject_Z (-1)) with (-1). lra. }
    rewrite <- Zlt_Qlt in A, B. lia. }
  rewrite Hk. change (inject_Z 0) with 0. ring.
Qed.

(** A value in [[d, 2d)] loses exactly one [d]. *)
Lemma rem_once : d <= n -> n < 2 * d -> JS.rem n d == n - d.
Proof.
  intros H0 H1. unfold JS.rem.
  assert (Hq : 0 <= n / d) by (apply Qle_shift_div_l; lra).
  rewrite (Qtrunc_floor _ Hq).
  assert (Hk : Qfloor (n / d) = 1%Z).
  { pose proof (Qfloor_le (n / d)) as Hlo.
    pose proof (Qlt_floor (n / d)) as Hhi.
    assert (Hq1 : n / d < 2) by (apply Qlt_shift_div_r; lra).
    assert (Hq2 : 1 <= n / d) by (apply Qle_shift_div_l; lra).
    assert (A : inject_Z (Qfloor (n / d)) < inject_Z 2) by (change (inject_Z 2) with 2; lra).
    assert (B : inject_Z 0 < inject_Z (Qfloor (n / d))).
    { rewrite inject_Z_plus in Hhi. change (inject_Z 1) with 1 in Hhi.
      change (inject_Z 0) with 0. lra. }
    rewrite <- Zlt_Qlt in A, B. lia. }
  rewrite Hk. change (inject_Z 1) with 1. ring.
Qed.

End RemFacts.

(** ** The comparisons of the source as propositions *)

Lemma le0_false (x : Q) : JS.le0 x = false <-> 0 < x.
Proof.
  unfold JS.le0. split; intros H.
  - apply Qnot_le_lt. intros C. apply Qle_bool_iff in C. congruence.
  - destruct (Qle_bool x 0) eqn:E; [| reflexivity].
    apply Qle_bool_iff in E. lra.
Qed.

Lemma le0_true (x : Q) : JS.le0 x = true <-> x <= 0.
Proof. unfold JS.le0. apply Qle_bool_iff. Qed.

Lemma gt0_true (x : Q) : JS.gt0 x = true <-> 0 < x.
Proof.
  unfold JS.gt0. rewrite negb_true_iff. apply le0_false.
Qed.

Lemma gt0_false (x : Q) : JS.gt0 x = false <-> x <= 0.
Proof.
  unfold JS.gt0. rewrite negb_false_iff. apply le0_true.
Qed.

Lemma abs_gt_true (x y : Q) : JS.abs_gt x y = true <-> y < Qabs x.
Proof.
  unfold JS.abs_gt. rewrite negb_true_iff. split; intros H.
  - apply Qnot_le_lt. intros C. apply Qle_bool_iff in C. congruence.
  - destruct (Qle_bool (Qabs x) y) eqn:E; [| reflexivity].
    apply Qle_bool_iff in E. lra.
Qed.

Lemma falsy_true (x : Q) : JS.falsy x = true <-> x == 0.
Proof. unfold JS.falsy. apply Qeq_bool_iff. Qed.

#[global] Instance le0_Proper : Proper (Qeq ==> eq) JS.le0.
Proof. intros x y E. unfold JS.le0. now rewrite E. Qed.

(** ** Normalisation *)

Section Normalize.

Variable w : Q.
Hypothesis w_pos : 0 < w.

Lemma normalizeOffset_pos (v : Q) :
  normalizeOffset w v = JS.rem (JS.rem v w + w) w.
Proof.
  unfold normalizeOffset. now rewrite (proj2 (le0_false w) w_pos).
Qed.

Lemma normalizeToMiddleBand_pos (v : Q) :
  normalizeToMiddleBand w v = w + normalizeOffset w (v - w).
Proof.
  unfold normalizeToMiddleBand. now rewrite (proj2 (le0_false w) w_pos).
Qed.


(** Values already inside the band are left alone. *)
Lemma normalizeOffset_fix (v : Q) :
  0 <= v -> v < w -> normalizeOffset w v == v.
Proof.
  intros H0 H1. rewrite normalizeOffset_pos.
  assert (E : JS.rem v w == v) by (apply rem_small; assumption).
  rewrite E. rewrite (rem_once _ w w_pos); lra.
Qed.



End Normalize.

#[global] Instance normalizeOffset_Proper :
  Proper (Qeq ==> Qeq ==> Qeq) normalizeOffset.
Proof.
  intros w w' Ew v v' Ev. unfold normalizeOffset.
  rewrite <- (le0_Proper _ _ Ew).
  destruct (JS.le0 w); [reflexivity |].
  now rewrite Ew, Ev.
Qed.

#[global] Instance normalizeToMiddleBand_Proper :
  Proper (Qeq ==> Qeq ==> Qeq) normalizeToMiddleBand.
Proof.
  intros w w' Ew v v' Ev. unfold normalizeToMiddleBand.
  rewrite <- (le0_Proper _ _ Ew).
  destruct (JS.le0 w); [reflexivity |].
  now rewrite Ew, Ev.
Qed.

Lemma normalizeOffset_zero (w : Q) : normalizeOffset w 0 == 0.
Proof.
  destruct (Qlt_le_dec 0 w) as [H | H].
  - apply normalizeOffset_fix; lra.
  - unfold normalizeOffset. now rewrite (proj2 (le0_true w) H).
Qed.

Lemma normalizeOffset_nonpos (w v : Q) : w <= 0 -> normalizeOffset w v = 0.
Proof.
  intros H. unfold normalizeOffset. now rewrite (proj2 (le0_true w) H).
Qed.

(** ** Facts about binary64 rounding

    Rounding is monotone and respects [==]; this and the exactness of [%]
    are all the properties below use of it. *)

Lemma pow2_pos (k : Z) : 0 < 2 ^ k.
Proof. now apply Qpower_0_lt. Qed.

Lemma pow2_succ (k : Z) : 2 ^ (k + 1) == 2 * 2 ^ k.
Proof. rewrite Qpower_plus by discriminate. rewrite Qpower_1_r. ring. Qed.

Lemma pow2_le (a b : Z) : (a <= b)%Z -> 2 ^ a <= 2 ^ b.
Proof. intros H. apply Qpower_le_compat_l; [exact H | discriminate]. Qed.

Lemma pow2_Z (a : Z) : (0 <= a)%Z -> inject_Z (2 ^ a) == 2 ^ a.
Proof. intros H. now rewrite Zpower_Qpower. Qed.

Lemma ilog2_spec (q : Q) :
  0 < q -> 2 ^ Double.ilog2 q <= q /\ q < 2 ^ (Double.ilog2 q + 1).
Proof.
  intros Hq. destruct q as [n d]. unfold Double.ilog2. cbn [Qnum Qden].
  assert (Hn : (0 < n)%Z).
  { unfold Qlt in Hq. cbn in Hq. lia. }
  set (a := Z.log2 n). set (b := Z.log2 (Z.pos d)).
  assert (Ha : (0 <= a)%Z) by apply Z.log2_nonneg.
  assert (Hb : (0 <= b)%Z) by apply Z.log2_nonneg.
  destruct (Z.log2_spec n Hn) as [Ha1 Ha2]. fold a in Ha1, Ha2.
  destruct (Z.log2_spec (Z.pos d) (Pos2Z.is_pos d)) as [Hb1 Hb2].
  fold b in Hb1, Hb2.
  assert (E : n # d == inject_Z n / inject_Z (Z.pos d)) by apply Qmake_Qdiv.
  assert (Hd : 0 < inject_Z (Z.pos d)) by reflexivity.
  assert (Qa1 : 2 ^ a <= inject_Z n).
  { rewrite <- pow2_Z by exact Ha. now rewrite <- Zle_Qle. }
  assert (Qa2 : inject_Z n < 2 ^ (a + 1)).
  { rewrite <- pow2_Z by lia. rewrite <- Zlt_Qlt. unfold Z.succ in Ha2. exact Ha2. }
  assert (Qb1 : 2 ^ b <= inject_Z (Z.pos d)).
  { rewrite <- pow2_Z by exact Hb. now rewrite <- Zle_Qle. }
  assert (Qb2 : inject_Z (Z.pos d) < 2 ^ (b + 1)).
  { rewrite <- pow2_Z by lia. rewrite <- Zlt_Qlt. unfold Z.succ in Hb2. exact Hb2. }
  pose proof (pow2_pos a) as Pa. pose proof (pow2_pos b) as Pb.
  pose proof (pow2_pos (a - b)) as Pk.
  assert (Ek : 2 ^ (a - b) * 2 ^ b == 2 ^ a).
  { rewrite <- Qpower_plus by discriminate. now replace (a - b + b)%Z with a by lia. }
  rewrite pow2_succ in Qa2, Qb2.
  set (D := inject_Z (Z.pos d)) in *. set (N := inject_Z n) in *.
  set (K := 2 ^ (a - b)) in *. set (A := 2 ^ a) in *. set (B := 2 ^ b) in *.
  assert (HKB : K * B <= K * D).
  { apply Qmult_le_l; assumption. }
  assert (HKD : K * D < K * (2 * B)).
  { apply Qmult_lt_l; assumption. }
  assert (Hup : N < 2 * K * D) by (clearbody K A B N D; lra).
  assert (Hlo : K * (1 # 2) * D < N) by (clearbody K A B N D; lra).
  destruct (Qle_bool K (n # d)) eqn:T.
  - apply Qle_bool_iff in T. split; [exact T |].
    rewrite pow2_succ. fold K. rewrite E.
    now apply Qlt_shift_div_r.
  - assert (T' : n # d < K).
    { apply Qnot_le_lt. intros C. apply Qle_bool_iff in C. congruence. }
    replace (a - b - 1 + 1)%Z with (a - b)%Z by lia. fold K.
    split; [| exact T'].
    assert (E2 : 2 ^ (a - b - 1) == K * (1 # 2)).
    { rewrite Qpower_minus by discriminate. fold K. now rewrite Qpower_1_r. }
    rewrite E2, E. apply Qle_shift_div_l; [exact Hd |]. now apply Qlt_le_weak.
Qed.

Lemma ilog2_unique (q : Q) (k : Z) :
  2 ^ k <= q -> q < 2 ^ (k + 1) -> Double.ilog2 q = k.
Proof.
  intros Hlo Hhi.
  assert (Hq : 0 < q) by (pose proof (pow2_pos k); lra).
  destruct (ilog2_spec q Hq) as [Llo Lhi].
  destruct (Z.lt_trichotomy (Double.ilog2 q) k) as [C | [C | C]];
    [exfalso | exact C | exfalso].
  - pose proof (pow2_le (Double.ilog2 q + 1) k ltac:(lia)). lra.
  - pose proof (pow2_le (k + 1) (Double.ilog2 q) ltac:(lia)). lra.
Qed.

Lemma ilog2_mono (x y : Q) :
  0 < x -> x <= y -> (Double.ilog2 x <= Double.ilog2 y)%Z.
Proof.
  intros Hx Hxy.
  destruct (ilog2_spec x Hx) as [Xlo Xhi].
  destruct (ilog2_spec y ltac:(lra)) as [Ylo Yhi].
  destruct (Z.le_gt_cases (Double.ilog2 x) (Double.ilog2 y)) as [C | C];
    [exact C | exfalso].
  pose proof (pow2_le (Double.ilog2 y + 1) (Double.ilog2 x) ltac:(lia)). lra.
Qed.

Lemma ilog2_eq (x y : Q) : 0 < x -> x == y -> Double.ilog2 x = Double.ilog2 y.
Proof.
  intros Hx E. symmetry. destruct (ilog2_spec x Hx).
  apply ilog2_unique; now rewrite <- E.
Qed.

#[global] Instance rne_Proper : Proper (Qeq ==> eq) Double.rne.
Proof.
  intros x y E. unfold Double.rne.
  rewrite (Qfloor_comp _ _ E).
  assert (E' : x - inject_Z (Qfloor y) == y - inject_Z (Qfloor y))
    by now rewrite E.
  now rewrite (Qcompare_comp _ _ E' _ _ (Qeq_refl (1 # 2))).
Qed.

Lemma rne_floor (q : Q) :
  (Qfloor q <= Double.rne q <= Qfloor q + 1)%Z.
Proof.
  unfold Double.rne.
  destruct (Qcompare _ _); [destruct (Z.even _) | |]; lia.
Qed.

Lemma rne_int (k : Z) : Double.rne (inject_Z k) = k.
Proof.
  unfold Double.rne. rewrite Qfloor_Z.
  assert (E : Qcompare (inject_Z k - inject_Z k) (1 # 2) = Lt).
  { apply -> Qlt_alt. lra. }
  now rewrite E.
Qed.

Lemma rne_mono (x y : Q) : x <= y -> (Double.rne x <= Double.rne y)%Z.
Proof.
  intros Hxy.
  pose proof (Qfloor_resp_le _ _ Hxy) as Hf.
  destruct (Z.eq_dec (Qfloor x) (Qfloor y)) as [E | N].
  - unfold Double.rne. rewrite <- E.
    set (f := Qfloor x).
    destruct (Qcompare (x - inject_Z f) (1 # 2)) eqn:Cx;
      destruct (Qcompare (y - inject_Z f) (1 # 2)) eqn:Cy;
      first [apply Qeq_alt in Cx | apply Qlt_alt in Cx | apply Qgt_alt in Cx];
      first [apply Qeq_alt in Cy | apply Qlt_alt in Cy | apply Qgt_alt in Cy];
      destruct (Z.even f); try lia; exfalso; lra.
  - pose proof (rne_floor x). pose proof (rne_floor y). lia.
Qed.

Lemma rne_ge (k : Z) (x : Q) : inject_Z k <= x -> (k <= Double.rne x)%Z.
Proof. intros H. rewrite <- (rne_int k). now apply rne_mono. Qed.

Lemma rne_le (k : Z) (x : Q) : x <= inject_Z k -> (Double.rne x <= k)%Z.
Proof. intros H. pose proof (rne_mono _ _ H) as L. now rewrite rne_int in L. Qed.

Lemma ulp_exponent_mono (x y : Q) :
  0 < x -> x <= y -> (Double.ulp_exponent x <= Double.ulp_exponent y)%Z.
Proof.
  intros Hx Hxy. unfold Double.ulp_exponent.
  pose proof (ilog2_mono x y Hx Hxy). lia.
Qed.

Lemma round_pos_eq (x y : Q) :
  0 < x -> x == y -> Double.round_pos x == Double.round_pos y.
Proof.
  intros Hx E. unfold Double.round_pos, Double.ulp_exponent.
  rewrite <- (ilog2_eq x y Hx E).
  set (e := Z.max (Double.ilog2 x - 52) (-1074)).
  assert (E' : x / 2 ^ e == y / 2 ^ e) by now rewrite E.
  now rewrite (rne_Proper _ _ E').
Qed.

Lemma round_pos_nonneg (x : Q) : 0 < x -> 0 <= Double.round_pos x.
Proof.
  intros Hx. unfold Double.round_pos.
  set (e := Double.ulp_exponent x).
  pose proof (pow2_pos e) as He.
  assert (H : (0 <= Double.rne (x / 2 ^ e))%Z).
  { apply rne_ge. apply Qle_shift_div_l; [exact He |].
    change (inject_Z 0) with 0. rewrite Qmult_0_l. now apply Qlt_le_weak. }
  apply Qmult_le_0_compat; [| now apply Qlt_le_weak].
  now rewrite <- (Zle_Qle 0).
Qed.

Lemma round_pos_mono (x y : Q) :
  0 < x -> x <= y -> Double.round_pos x <= Double.round_pos y.
Proof.
  intros Hx Hxy. unfold Double.round_pos.
  pose proof (ulp_exponent_mono x y Hx Hxy) as He.
  set (ex := Double.ulp_exponent x) in *.
  set (ey := Double.ulp_exponent y) in *.
  pose proof (pow2_pos ex) as Px. pose proof (pow2_pos ey) as Py.
  destruct (Z.eq_dec ex ey) as [E | N].
  - rewrite <- E. apply Qmult_le_compat_r; [| now apply Qlt_le_weak].
    rewrite <- Zle_Qle. apply rne_mono.
    apply Qmult_le_compat_r; [exact Hxy |].
    apply Qlt_le_weak, Qinv_lt_0_compat, Px.
  - assert (Hy : 0 < y) by lra.
    destruct (ilog2_spec x Hx) as [_ Xhi].
    destruct (ilog2_spec y Hy) as [Ylo _].
    assert (Ey : ey = (Double.ilog2 y - 52)%Z).
    { subst ex ey. unfold Double.ulp_exponent in *. lia. }
    assert (Lx : (Double.ilog2 x + 1 <= ex + 53)%Z).
    { subst ex. unfold Double.ulp_exponent. lia. }
    (* x rounds to at most 2^53 units of 2^ex *)
    assert (Rx : inject_Z (Double.rne (x / 2 ^ ex)) <= 2 ^ 53).
    { change (2 ^ 53) with (inject_Z (2 ^ 53)). rewrite <- Zle_Qle.
      apply rne_le. apply Qle_shift_div_r; [exact Px |].
      change (inject_Z (2 ^ 53)) with (2 ^ 53).
      rewrite <- Qpower_plus by discriminate.
      replace (53 + ex)%Z with (ex + 53)%Z by lia.
      apply Qlt_le_weak, (Qlt_le_trans _ _ _ Xhi), pow2_le, Lx. }
    (* y rounds to at least 2^52 units of 2^ey *)
    assert (Ry : 2 ^ 52 <= inject_Z (Double.rne (y / 2 ^ ey))).
    { change (2 ^ 52) with (inject_Z (2 ^ 52)). rewrite <- Zle_Qle.
      apply rne_ge. apply Qle_shift_div_l; [exact Py |].
      change (inject_Z (2 ^ 52)) with (2 ^ 52).
      rewrite <- Qpower_plus by discriminate.
      replace (52 + ey)%Z with (Double.ilog2 y) by lia. exact Ylo. }
    assert (Hp : 2 ^ 53 * 2 ^ ex <= 2 ^ 52 * 2 ^ ey).
    { rewrite <- !Qpower_plus by discriminate. apply pow2_le. lia. }
    apply Qle_trans with (2 ^ 53 * 2 ^ ex).
    + apply Qmult_le_compat_r; [exact Rx | now apply Qlt_le_weak].
    + apply Qle_trans with (2 ^ 52 * 2 ^ ey); [exact Hp |].
      apply Qmult_le_compat_r; [exact Ry | now apply Qlt_le_weak].
Qed.

Lemma Qnum_sign (q : Q) :
  match Qnum q with
  | Z0 => q == 0
  | Zpos _ => 0 < q
  | Zneg _ => q < 0
  end.
Proof. destruct q as [[| p | p] d]; reflexivity. Qed.

#[global] Instance round_Proper : Proper (Qeq ==> Qeq) Double.round.
Proof.
  intros x y E. unfold Double.round.
  pose proof (Qnum_sign x) as Sx. pose proof (Qnum_sign y) as Sy.
  destruct (Qnum x), (Qnum y); try reflexivity; try (exfalso; lra).
  - now apply round_pos_eq.
  - apply Qopp_comp. apply round_pos_eq; [lra | now rewrite E].
Qed.

Lemma round_mono (x y : Q) : x <= y -> Double.round x <= Double.round y.
Proof.
  intros Hxy. unfold Double.round.
  pose proof (Qnum_sign x) as Sx. pose proof (Qnum_sign y) as Sy.
  destruct (Qnum x), (Qnum y); try lra.
  - now apply round_pos_nonneg.
  - now apply round_pos_mono.
  - pose proof (round_pos_nonneg (- x)). lra.
  - pose proof (round_pos_nonneg (- x)). pose proof (round_pos_nonneg y). lra.
  - pose proof (round_pos_mono (- y) (- x)). lra.
Qed.

Lemma round_zero : Double.round 0 = 0.
Proof. reflexivity. Qed.

Lemma round_nonneg (x : Q) : 0 <= x -> 0 <= Double.round x.
Proof. intros H. rewrite <- round_zero. now apply round_mono. Qed.

#[global] Instance add_Proper : Proper (Qeq ==> Qeq ==> Qeq) Double.add.
Proof. intros a a' Ea b b' Eb. unfold Double.add. now rewrite Ea, Eb. Qed.

#[global] Instance sub_Proper : Proper (Qeq ==> Qeq ==> Qeq) Double.sub.
Proof. intros a a' Ea b b' Eb. unfold Double.sub. now rewrite Ea, Eb. Qed.

#[global] Instance mul_Proper : Proper (Qeq ==> Qeq ==> Qeq) Double.mul.
Proof. intros a a' Ea b b' Eb. unfold Double.mul. now rewrite Ea, Eb. Qed.

#[global] Instance div_Proper : Proper (Qeq ==> Qeq ==> Qeq) Double.div.
Proof. intros a a' Ea b b' Eb. unfold Double.div. now rewrite Ea, Eb. Qed.

(** *** Integers *)

Lemma ilog2_integer (k : Z) :
  (0 < k)%Z -> Double.ilog2 (inject_Z k) = Z.log2 k.
Proof.
  intros Hk. destruct (Z.log2_spec k Hk) as [Hlo Hhi].
  pose proof (Z.log2_nonneg k) as Hn.
  apply ilog2_unique.
  - rewrite <- pow2_Z by exact Hn. now rewrite <- Zle_Qle.
  - rewrite <- pow2_Z by lia. rewrite <- Zlt_Qlt. exact Hhi.
Qed.

Lemma round_positive (q : Q) : 0 < q -> Double.round q = Double.round_pos q.
Proof.
  intros H. unfold Double.round. pose proof (Qnum_sign q) as S.
  destruct (Qnum q); [| reflexivity |]; exfalso; lra.
Qed.

(** Every positive integer below [2 ^ 53] is a binary64 number. *)
Lemma integer_representable (k : Z) :
  (0 < k < 2 ^ 53)%Z -> Double.representable (inject_Z k).
Proof.
  intros [Hk Hhi]. split.
  - rewrite round_positive by (rewrite <- (Zlt_Qlt 0); exact Hk).
    unfold Double.round_pos, Double.ulp_exponent.
    rewrite (ilog2_integer k Hk).
    assert (HL : (0 <= Z.log2 k < 53)%Z).
    { split; [apply Z.log2_nonneg |]. now apply Z.log2_lt_pow2. }
    replace (Z.max (Z.log2 k - 52) (-1074)) with (Z.log2 k - 52)%Z by lia.
    set (e := (Z.log2 k - 52)%Z).
    pose proof (pow2_pos e) as Pe.
    assert (E : inject_Z k / 2 ^ e == inject_Z (k * 2 ^ (- e))).
    { rewrite inject_Z_mult, pow2_Z by lia.
      rewrite Qpower_opp. field. intros C. rewrite C in Pe. now apply Qlt_irrefl in Pe. }
    rewrite (rne_Proper _ _ E), rne_int.
    rewrite inject_Z_mult, pow2_Z by lia.
    rewrite Qpower_opp. field. intros C. rewrite C in Pe. now apply Qlt_irrefl in Pe.
  - rewrite Qabs_pos by (rewrite <- (Zle_Qle 0); lia).
    change (2 ^ 1024) with (inject_Z (2 ^ 1024)).
    rewrite <- Zlt_Qlt. apply Z.lt_trans with (2 ^ 53)%Z; [exact Hhi | reflexivity].
Qed.

(** [offsetWidth] is an integer number of pixels: a width and its double
    are binary64 numbers. *)
Lemma width_representable (k : Z) :
  (0 < k < 2 ^ 52)%Z ->
  Double.representable (inject_Z k)
  /\ Double.representable (2 * inject_Z k).
Proof.
  intros H. split.
  - apply integer_representable. lia.
  - change 2 with (inject_Z 2). rewrite <- inject_Z_mult.
    apply integer_representable.
    change (2 ^ 53)%Z with (2 * 2 ^ 52)%Z. lia.
Qed.

(** *** The normalisation functions in binary64 *)

Lemma double_normalizeOffset_pos (w v : Q) :
  0 < w ->
  Double.normalizeOffset w v
  = JS.rem (Double.add (JS.rem v w) w) w.
Proof.
  intros Hw. unfold Double.normalizeOffset.
  now rewrite (proj2 (le0_false w) Hw).
Qed.

Lemma double_normalizeToMiddleBand_pos (w v : Q) :
  0 < w ->
  Double.normalizeToMiddleBand w v
  = Double.add w (Double.normalizeOffset w (Double.sub v w)).
Proof.
  intros Hw. unfold Double.normalizeToMiddleBand.
  now rewrite (proj2 (le0_false w) Hw).
Qed.

(** The inner sum is rounded, but it is not negative, and the outer [%]
    is exact: the offset is in range whatever the rounding did. *)
Lemma double_normalizeOffset_bounds (w v : Q) :
  0 < w ->
  0 <= Double.normalizeOffset w v /\ Double.normalizeOffset w v < w.
Proof.
  intros Hw. rewrite (double_normalizeOffset_pos w v Hw).
  apply rem_nonneg; [exact Hw |].
  apply round_nonneg.
  destruct (rem_bounds v w Hw). lra.
Qed.

(** The last sum of [normalizeToMiddleBand] is rounded as well, and may
    round up to the start of the next band. *)
Lemma double_normalizeToMiddleBand_bounds (w v : Q) :
  0 < w ->
  Double.representable w ->
  Double.representable (2 * w) ->
  w <= Double.normalizeToMiddleBand w v
  /\ Double.normalizeToMiddleBand w v <= 2 * w.
Proof.
  intros Hw [Rw _] [R2w _]. rewrite (double_normalizeToMiddleBand_pos w v Hw).
  destruct (double_normalizeOffset_bounds w (Double.sub v w) Hw) as [Hlo Hhi].
  unfold Double.add. split.
  - rewrite <- Rw at 1. apply round_mono. lra.
  - rewrite <- R2w. apply round_mono. lra.
Qed.

#[global] Instance double_normalizeOffset_Proper :
  Proper (Qeq ==> Qeq ==> Qeq) Double.normalizeOffset.
Proof.
  intros w w' Ew v v' Ev. unfold Double.normalizeOffset.
  rewrite <- (le0_Proper _ _ Ew).
  destruct (JS.le0 w); [reflexivity |].
  now rewrite Ew, Ev.
Qed.

#[global] Instance double_normalizeToMiddleBand_Proper :
  Proper (Qeq ==> Qeq ==> Qeq) Double.normalizeToMiddleBand.
Proof.
  intros w w' Ew v v' Ev. unfold Double.normalizeToMiddleBand.
  rewrite <- (le0_Proper _ _ Ew).
  destruct (JS.le0 w); [reflexivity |].
  now rewrite Ew, Ev.
Qed.

(** ** Running the monadic code in proofs *)

Ltac js_unfold :=
  unfold exec, dispatch, onMouseEnter, onMouseLeave, onScroll, onResize,
    onPageHide, onVisibilityChange, tick, setupBody,
    syncFromCurrentScroll, schedulePersist, persistCallback, persistPosition,
    setScrollSafely, requestAnimationFrame, clearTimeout, setTimeout,
    setItem, getItem, when, try_catch, modify, gets,
    mbind, mret, M_bind, M_ret, bind, ret in *.

#[global] Arguments JS.le0 : simpl never.
#[global] Arguments JS.gt0 : simpl never.
#[global] Arguments JS.abs_gt : simpl never.
#[global] Arguments JS.falsy : simpl never.
#[global] Arguments normalizeOffset : simpl never.
#[global] Arguments normalizeToMiddleBand : simpl never.
#[global] Arguments Double.round : simpl never.
#[global] Arguments Double.add : simpl never.
#[global] Arguments Double.sub : simpl never.
#[global] Arguments Double.mul : simpl never.
#[global] Arguments Double.div : simpl never.
#[global] Arguments Double.normalizeOffset : simpl never.
#[global] Arguments Double.normalizeToMiddleBand : simpl never.

Ltac js_simpl := js_unfold; cbn [fst snd] in *.

Ltac unfold_dispatch := unfold exec, dispatch.
Ltac unfold_run := unfold run.

(** Reduction limited to the record and to the boolean connectives. *)
Ltac js_cbn :=
  cbn [fst snd paused setWidth savedPos autoWrite lastTs persistTimer
       scrollLeft written localStorage timeouts nextTimeout frameCallbacks
       set_paused set_setWidth set_savedPos set_autoWrite set_lastTs
       set_persistTimer assign_scrollLeft user_scrollLeft set_localStorage
       set_timeouts set_nextTimeout set_frameCallbacks
       Storage.items Storage.blocked Storage.full orb andb negb] in *.

(** One case split on the test the code is about to take. *)
Ltac js_case :=
  match goal with
  | |- context [if ?b then _ else _] => destruct b eqn:?
  | |- context [match ?o with Some _ => _ | None => _ end] =>
      destruct o eqn:?
  | |- context [match ?o with inl _ => _ | inr _ => _ end] =>
      destruct o eqn:?
  | |- context [match ?n with O => _ | S _ => _ end] => destruct n eqn:?
  end; js_cbn.

Ltac js_run := js_unfold; js_cbn; repeat (once js_case).

(** The same for the listeners of [Double]. *)
Ltac double_unfold :=
  unfold Double.exec, Double.dispatch, Double.onScroll, Double.onResize,
    Double.tick, Double.setupBody, Double.syncFromCurrentScroll in *.

Ltac double_run := double_unfold; js_run.

Ltac unfold_double_run := unfold Double.run.

(** The outcomes of the tests, as facts about the numbers. *)
Ltac js_tests :=
  repeat match goal with
         | H : _ && _ = true |- _ =>
             apply andb_true_iff in H; destruct H
         | H : _ || _ = false |- _ =>
             apply orb_false_iff in H; destruct H
         | H : negb _ = true |- _ => apply negb_true_iff in H
         | H : negb _ = false |- _ => apply negb_false_iff in H
         | H : JS.gt0 _ = true |- _ => apply gt0_true in H
         | H : JS.gt0 _ = false |- _ => apply gt0_false in H
         | H : JS.le0 _ = true |- _ => apply le0_true in H
         | H : JS.le0 _ = false |- _ => apply le0_false in H
         | H : JS.abs_gt _ _ = true |- _ => apply abs_gt_true in H
         | H : JS.falsy _ = true |- _ => apply falsy_true in H
         end.

(** ** Properties of the normalisation functions *)



(** C6, as stated, fails in binary64: at width 1000 the position
    999.9999999999999 (the largest number below 1000) has the offset
    999.9999999999999, and [1000 + 999.9999999999999], half-way between
    two binary64 numbers, rounds to 2000, the start of the next band. *)
Lemma normalizeToMiddleBand_reaches_next_band :
  ~ (1000 <= Double.normalizeToMiddleBand 1000
               (Double.round (9999999999999999 # 10000000000000))
     /\ Double.normalizeToMiddleBand 1000
          (Double.round (9999999999999999 # 10000000000000))
        < 2 * 1000).
Proof. intros [_ H]. vm_compute in H. discriminate H. Qed.

(** C6, amended: for every value [v] and every [setWidth > 0] (a binary64
    number whose double is one too), [normalizeToMiddleBand v] is
    [setWidth + normalizeOffset (v - setWidth)] as JavaScript computes
    it, and lies in the closed interval [[setWidth, 2 * setWidth]]. *)
Theorem normalizeToMiddleBand_closed_range (setWidth v : Q) :
  0 < setWidth ->
  Double.representable setWidth ->
  Double.representable (2 * setWidth) ->
  Double.normalizeToMiddleBand setWidth v
  = Double.add setWidth
      (Double.normalizeOffset setWidth (Double.sub v setWidth))
  /\ setWidth <= Double.normalizeToMiddleBand setWidth v
  /\ Double.normalizeToMiddleBand setWidth v <= 2 * setWidth.
Proof.
  intros Hw Rw R2w. split; [now apply double_normalizeToMiddleBand_pos |].
  now apply double_normalizeToMiddleBand_bounds.
Qed.

Lemma normalizeToMiddleBand_closed_range_witness :
  (0 < 1000 /\ Double.representable 1000 /\ Double.representable (2 * 1000))
  /\ Double.normalizeToMiddleBand 1000 999 == 1999
  /\ Double.normalizeToMiddleBand 1000
       (Double.round (9999999999999999 # 10000000000000)) == 2 * 1000
  /\ 1000 <= Double.normalizeToMiddleBand 1000 999 <= 2 * 1000.
Proof.
  assert (H : 0 < 1000) by reflexivity.
  assert (R1 : Double.representable 1000) by (split; vm_compute; reflexivity).
  assert (R2 : Double.representable (2 * 1000))
    by (split; vm_compute; reflexivity).
  destruct (normalizeToMiddleBand_closed_range 1000 999 H R1 R2)
    as (_ & Hlo & Hhi).
  split; [now repeat split |].
  split; [vm_compute; reflexivity |].
  split; [vm_compute; reflexivity |]. split; assumption.
Defined.


(** ** Properties of the listeners *)

Section Properties.

Variable Number : option string -> JS.number.
Variable String : Q -> string.

Abbreviation exec := (exec String).
Abbreviation dispatch := (dispatch String).
Abbreviation run := (run String).
Abbreviation setupBody := (setupBody Number).
Abbreviation persistPosition := (persistPosition String).
Abbreviation persistCallback := (persistCallback String).

(** *** The animation tick *)

Lemma tick_normal (ts : Q) (s : state) : fst (tick ts s) = Normal tt.
Proof.
  js_simpl. destruct s; cbn.
  destruct (JS.falsy _), (negb _ && JS.gt0 _); reflexivity.
Qed.

Lemma tick_paused (ts : Q) (s : state) :
  paused s = true ->
  snd (tick ts s)
  = set_frameCallbacks (S (frameCallbacks s)) (set_lastTs ts s).
Proof.
  intros Hp. js_simpl. destruct s; cbn in *. subst.
  destruct (JS.falsy _); reflexivity.
Qed.


(** C8: while [paused] is true an animation tick, whatever time has
    elapsed, leaves [savedPos] and the visible position as they were and
    writes nothing; it only moves the frame-timestamp baseline [lastTs]
    (and asks for the next frame, so that a delivered frame changes
    [lastTs] alone). *)
Theorem paused_tick_only_rebaselines (ts : Q) (s : state) :
  paused s = true ->
  let s' := snd (tick ts s) in
  fst (tick ts s) = Normal tt
  /\ savedPos s' = savedPos s
  /\ scrollLeft s' = scrollLeft s
  /\ written s' = written s
  /\ lastTs s' = ts
  /\ s' = set_frameCallbacks (S (frameCallbacks s)) (set_lastTs ts s)
  /\ (forall n, frameCallbacks s = S n ->
      exec (Frame ts) s = set_lastTs ts s).
Proof.
  intros Hp s'. subst s'. split; [apply tick_normal |].
  rewrite (tick_paused ts s Hp).
  repeat split.
  intros n Hn. unfold_dispatch.
  unfold mbind, M_bind, bind, gets, modify. rewrite Hn.
  assert (Hp' : paused (set_frameCallbacks n s) = true) by exact Hp.
  pose proof (tick_normal ts (set_frameCallbacks n s)) as Hc.
  pose proof (tick_paused ts (set_frameCallbacks n s) Hp') as Hs.
  destruct (tick ts (set_frameCallbacks n s)) as [c t]. cbn in *.
  subst c t. destruct s; cbn in *. now subst.
Qed.


(** *** Resize *)

Lemma onResize_normal (offsetWidth : Q) (s : state) :
  fst (onResize offsetWidth s) = Normal tt.
Proof.
  js_simpl. destruct s; cbn.
  destruct (JS.le0 offsetWidth); [reflexivity |].
  destruct (JS.gt0 _); reflexivity.
Qed.

Lemma onResize_positive (offsetWidth : Q) (s : state) :
  0 < offsetWidth ->
  let pos := normalizeOffset offsetWidth (rescaled offsetWidth s) in
  snd (onResize offsetWidth s)
  = set_autoWrite false
      (assign_scrollLeft (offsetWidth + pos)
         (set_autoWrite true
            (set_savedPos pos (set_setWidth offsetWidth s)))).
Proof.
  intros Hw. apply le0_false in Hw. unfold rescaled.
  js_simpl. destruct s; cbn. rewrite Hw.
  destruct (JS.gt0 setWidth0); reflexivity.
Qed.

Lemma onResize_nonpositive (offsetWidth : Q) (s : state) :
  offsetWidth <= 0 ->
  snd (onResize offsetWidth s) = set_setWidth offsetWidth s.
Proof.
  intros Hw. apply le0_true in Hw.
  js_simpl. destruct s; cbn. now rewrite Hw.
Qed.


(** *** The scroll listener *)

Lemma onScroll_normal (s : state) : fst (onScroll s) = Normal tt.
Proof.
  js_simpl. destruct s; cbn.
  destruct autoWrite0; cbn; [reflexivity |].
  destruct (JS.le0 setWidth0) eqn:E; cbn; [reflexivity |].
  rewrite E. cbn.
  destruct (JS.abs_gt _ _); cbn; destruct persistTimer0; reflexivity.
Qed.

(** The fields the scroll listener settles, for a user-driven event over
    a positive width. *)
Lemma onScroll_user (s : state) :
  autoWrite s = false ->
  0 < setWidth s ->
  let w := setWidth s in
  let x := scrollLeft s in
  let n := normalizeToMiddleBand w x in
  let s' := snd (onScroll s) in
  savedPos s' = normalizeOffset w (n - w)
  /\ setWidth s' = w
  /\ autoWrite s' = false
  /\ persistTimer s' = Some (nextTimeout s)
  /\ (if JS.abs_gt (n - x) 1
      then scrollLeft s' = n /\ written s' = (true, n) :: written s
      else scrollLeft s' = x /\ written s' = written s).
Proof.
  intros Ha Hw. apply le0_false in Hw.
  js_simpl. destruct s; cbn in *. subst. rewrite Hw; cbn. rewrite Hw; cbn.
  destruct (JS.abs_gt _ _); cbn; destruct persistTimer0; cbn;
    repeat split; reflexivity.
Qed.


(** *** No listener throws *)

Lemma persistPosition_spec (s : state) :
  persistPosition s
  = (Normal tt,
     match Storage.setItem storageKey (String (savedPos s)) (localStorage s)
     with
     | inl _ => s
     | inr ls => set_localStorage ls s
     end).
Proof. js_run; reflexivity. Qed.

Lemma dispatch_normal (e : event) (s : state) :
  fst (dispatch e s) = Normal tt.
Proof.
  destruct e; unfold_dispatch; js_run; reflexivity.
Qed.

(** *** The debounce timer *)

Lemma run_app (es es' : list event) (s : state) :
  run (es ++ es') s = run es' (run es s).
Proof. unfold_run. apply fold_left_app. Qed.

Lemma run_cons (e : event) (es : list event) (s : state) :
  run (e :: es) s = run es (exec e s).
Proof. reflexivity. Qed.

Lemma exec_slot (e : event) (s : state) :
  single_slot s -> slot_issued s ->
  single_slot (exec e s) /\ slot_issued (exec e s).
Proof.
  unfold single_slot, slot_issued.
  destruct e; js_run; intros Hs Hi; simplify_eq;
    (split; [| intros ? ?; simplify_eq; try lia; eauto]);
    try assumption; try reflexivity;
    repeat match goal with H : decide _ = _ |- _ => clear H end;
    rewrite Hs in *; clear Hs;
    try match goal with
        | H : _ ∈ {[ _ ]} |- _ => apply elem_of_singleton in H; subst
        | H : _ ∈ ∅ |- _ => now apply not_elem_of_empty in H
        end;
    rewrite ?difference_diag_L, ?(right_id_L ∅ (∪)); reflexivity.
Qed.

Lemma setup_normal (offsetWidth scroll0 : Q) (ls : Storage.t)
    (next : positive) :
  fst (setupBody (initial offsetWidth scroll0 ls next)) = Normal tt.
Proof. unfold initial. js_run; reflexivity. Qed.

Lemma setup_slot (offsetWidth scroll0 : Q) (ls : Storage.t)
    (next : positive) :
  let s0 := snd (setupBody (initial offsetWidth scroll0 ls next)) in
  single_slot s0 /\ slot_issued s0.
Proof.
  unfold single_slot, slot_issued, initial.
  js_run; try discriminate; (split; [reflexivity | intros ? ?; discriminate]).
Qed.

Lemma run_slot (es : list event) (s : state) :
  single_slot s -> slot_issued s ->
  single_slot (run es s) /\ slot_issued (run es s).
Proof.
  revert s. induction es as [| e es IH]; intros s Hs Hi.
  - split; assumption.
  - rewrite run_cons. destruct (exec_slot e s Hs Hi) as [Hs' Hi'].
    now apply IH.
Qed.

Lemma single_slot_size (s : state) : single_slot s -> (size (timeouts s) <= 1)%nat.
Proof.
  unfold single_slot. intros ->. destruct (persistTimer s).
  - now rewrite size_singleton.
  - rewrite size_empty. lia.
Qed.

Lemma onPageHide_slot (s : state) :
  single_slot s ->
  let s' := snd (onPageHide String s) in
  persistTimer s' = None
  /\ timeouts s' = ∅
  /\ savedPos s' = savedPos s
  /\ (Storage.blocked (localStorage s) = false ->
      Storage.full (localStorage s) = false ->
      Storage.items (localStorage s') !! storageKey
      = Some (String (savedPos s))).
Proof.
  unfold single_slot.
  js_run; intros Hs;
    (split; [first [reflexivity | assumption] |]);
    (split; [first [assumption | rewrite Hs; apply difference_diag_L] |]);
    (split; [reflexivity |]); intros Hb Hf;
    match goal with
    | H : Storage.setItem _ _ _ = _ |- _ =>
        unfold Storage.setItem in H; rewrite Hb, Hf in H;
        inversion H; subst; clear H
    end;
    js_cbn; apply lookup_insert_eq.
Qed.

Lemma schedulePersist_slot (s : state) :
  single_slot s ->
  let s' := snd (schedulePersist s) in
  fst (schedulePersist s) = Normal tt
  /\ persistTimer s' = Some (nextTimeout s)
  /\ timeouts s' = {[nextTimeout s]}
  /\ savedPos s' = savedPos s
  /\ (slot_issued s ->
      forall old, persistTimer s = Some old -> old ∉ timeouts s').
Proof.
  unfold single_slot, slot_issued.
  js_run; intros Hs; rewrite Hs; clear Hs;
    rewrite ?difference_diag_L, ?(right_id_L ∅ (∪));
    (split; [reflexivity |]); (split; [reflexivity |]);
    (split; [reflexivity |]); (split; [reflexivity |]);
    intros Hi old Ho; simplify_eq.
  specialize (Hi old eq_refl).
  intros C%elem_of_singleton. lia.
Qed.

(** C9: in every state the scroller reaches, at most one debounce timer is
    pending, and it is the one [persistTimer] names; [schedulePersist]
    cancels the pending timer before it registers the new one, so only
    the new one is left; the page-hide listener and the visibility
    listener on [hidden] cancel the pending timer and then write the
    offset to storage at once, whatever the state. *)
Theorem persist_timer_single_slot (offsetWidth scroll0 : Q)
    (ls : Storage.t) (next : positive) (es : list event) :
  let s := run es (snd (setupBody (initial offsetWidth scroll0 ls next))) in
  let scheduled := snd (schedulePersist s) in
  let flushed (e : event) :=
    persistTimer (exec e s) = None
    /\ timeouts (exec e s) = ∅
    /\ (Storage.blocked (localStorage s) = false ->
        Storage.full (localStorage s) = false ->
        Storage.items (localStorage (exec e s)) !! storageKey
        = Some (String (savedPos s))) in
  single_slot s
  /\ (size (timeouts s) <= 1)%nat
  /\ persistTimer scheduled = Some (nextTimeout s)
  /\ timeouts scheduled = {[nextTimeout s]}
  /\ (forall old, persistTimer s = Some old -> old ∉ timeouts scheduled)
  /\ flushed PageHide
  /\ flushed (VisibilityChange true).
Proof.
  intros s scheduled flushed.
  destruct (setup_slot offsetWidth scroll0 ls next) as [Hs0 Hi0].
  destruct (run_slot es _ Hs0 Hi0) as [Hs Hi]. fold s in Hs, Hi.
  destruct (schedulePersist_slot s Hs) as (_ & Hp & Ht & _ & Hold).
  destruct (onPageHide_slot s Hs) as (Fp & Ft & _ & Fs).
  split; [exact Hs |].
  split; [now apply single_slot_size |].
  split; [exact Hp |].
  split; [exact Ht |].
  split; [exact (Hold Hi) |].
  split; (split; [exact Fp | split; [exact Ft | exact Fs]]).
Qed.

(** *** Programmatic writes *)

Lemma setup_write (offsetWidth scroll0 : Q) (ls : Storage.t)
    (next : positive) :
  let s0 := snd (setupBody (initial offsetWidth scroll0 ls next)) in
  setWidth s0 = offsetWidth
  /\ autoWrite s0 = false
  /\ (0 < offsetWidth ->
      written s0 = [(true, scrollLeft s0)] /\ band_anchored s0)
  /\ (offsetWidth <= 0 ->
      written s0 = [] /\ scrollLeft s0 = scroll0 /\ savedPos s0 = 0).
Proof.
  unfold band_anchored, initial.
  js_run; js_tests; (split; [reflexivity |]); (split; [reflexivity |]);
    (split; intros Hw; [try lra | try lra]);
    repeat split; try reflexivity;
    now apply normalizeOffset_nonpos.
Qed.

Lemma exec_autoWrite (e : event) (s : state) :
  autoWrite s = false -> autoWrite (exec e s) = false.
Proof. destruct e; js_run; intros H; first [reflexivity | exact H]. Qed.

Lemma run_autoWrite (es : list event) (s : state) :
  autoWrite s = false -> autoWrite (run es s) = false.
Proof.
  revert s. induction es as [| e es IH]; intros s H; [exact H |].
  rewrite run_cons. apply IH. now apply exec_autoWrite.
Qed.

(** Between two listeners the suppression flag is always down: every
    scroll event the scroller sees in a run counts as user-driven. *)
Lemma flag_down_between_listeners (offsetWidth scroll0 : Q)
    (ls : Storage.t) (next : positive) (es : list event) :
  autoWrite (run es (snd (setupBody (initial offsetWidth scroll0 ls next))))
  = false.
Proof.
  apply run_autoWrite.
  now destruct (setup_write offsetWidth scroll0 ls next) as (_ & H & _).
Qed.

Lemma setupAutoScroll_runs (container : option Q) (offsetWidth : Q)
    (ls : Storage.t) (next : positive) :
  setupAutoScroll Number container offsetWidth ls next
  = (fun scroll0 => setupBody (initial offsetWidth scroll0 ls next))
      <$> container.
Proof. now destruct container. Qed.

(** *** A scroller set up without a width *)

Lemma exec_idle (e : event) (s : state) :
  measures_no_width e ->
  setWidth s <= 0 -> savedPos s = 0 ->
  setWidth (exec e s) <= 0 /\ savedPos (exec e s) = 0.
Proof.
  destruct e; cbn [measures_no_width]; intros Hm Hw Hp;
    js_run; js_tests; try lra; split; assumption.
Qed.

Lemma run_idle (es : list event) (s : state) :
  Forall measures_no_width es ->
  setWidth s <= 0 -> savedPos s = 0 ->
  setWidth (run es s) <= 0 /\ savedPos (run es s) = 0.
Proof.
  intros Hes. revert s.
  induction Hes as [| e es He _ IH]; intros s Hw Hp.
  - split; assumption.
  - rewrite run_cons. destruct (exec_idle e s He Hw Hp). now apply IH.
Qed.

(** C10: when [setWidth] is not positive as [setupAutoScroll] runs,
    [normalizeOffset] answers 0 for every value, so setup leaves
    [savedPos] at 0 whatever the storage held; the offset stays 0 for as
    long as no positive width is measured, and the first resize that
    measures one starts the scroller at offset 0, the visible position
    being the start of the middle band. *)
Theorem nonpositive_width_discards_restored_offset
    (offsetWidth scroll0 : Q) (ls : Storage.t) (next : positive)
    (es : list event) (newWidth : Q) :
  offsetWidth <= 0 ->
  Forall measures_no_width es ->
  0 < newWidth ->
  let s0 := snd (setupBody (initial offsetWidth scroll0 ls next)) in
  let s := run es s0 in
  let s' := exec (Resize newWidth) s in
  (forall v, normalizeOffset offsetWidth v = 0)
  /\ savedPos s0 = 0
  /\ written s0 = []
  /\ savedPos s = 0
  /\ setWidth s' = newWidth
  /\ savedPos s' == 0
  /\ scrollLeft s' == newWidth.
Proof.
  intros Hw Hes Hnew s0 s s'.
  destruct (setup_write offsetWidth scroll0 ls next) as (Hsw & _ & _ & Hneg).
  destruct (Hneg Hw) as (Hwr & _ & Hp0). fold s0 in Hsw, Hwr, Hp0.
  assert (Hw0 : setWidth s0 <= 0) by now rewrite Hsw.
  destruct (run_idle es s0 Hes Hw0 Hp0) as [Hws Hps]. fold s in Hws, Hps.
  split; [intros v; now apply normalizeOffset_nonpos |].
  split; [exact Hp0 |]. split; [exact Hwr |]. split; [exact Hps |].
  subst s'. change (exec (Resize newWidth) s) with (snd (onResize newWidth s)).
  rewrite (onResize_positive newWidth s Hnew). cbn.
  assert (R : rescaled newWidth s = 0).
  { unfold rescaled. now rewrite (proj2 (gt0_false _) Hws). }
  rewrite R. split; [reflexivity |].
  split; [apply normalizeOffset_zero |].
  rewrite normalizeOffset_zero. ring.
Qed.

(** *** Storage failures *)

Lemma setup_reads (offsetWidth scroll0 : Q) (ls : Storage.t)
    (next : positive) :
  let s0 := snd (setupBody (initial offsetWidth scroll0 ls next)) in
  savedPos s0
  = normalizeOffset offsetWidth
      (match Storage.getItem storageKey ls with
       | inl _ => 0
       | inr stored =>
           match JS.isFinite (Number stored) with
           | Some q => q
           | None => 0
           end
       end).
Proof. unfold initial. js_run; reflexivity. Qed.

Lemma persistCallback_fails (s : state) (e : Storage.DOMException) :
  Storage.setItem storageKey (String (savedPos s)) (localStorage s) = inl e ->
  persistCallback s = (Normal tt, set_persistTimer None s).
Proof. intros H. js_run; js_cbn; congruence. Qed.

Lemma tick_ignores_timer (ts : Q) (s : state) :
  snd (tick ts (set_persistTimer None s))
  = set_persistTimer None (snd (tick ts s)).
Proof. js_run; reflexivity. Qed.

(** C7: at setup a storage read that throws, or a stored value that is
    not a finite number, leaves [savedPos] at 0 (a finite stored value is
    taken, wrapped into the band); [persistPosition] never throws, and
    when the write fails it leaves the state as it was; no listener
    throws either, and after a failed debounce flush a tick does to
    [savedPos] and to the visible position what it would have done
    anyway. *)
Theorem storage_failures_are_harmless (offsetWidth scroll0 : Q)
    (ls : Storage.t) (next : positive) (s : state) (e : event) (ts : Q) :
  let setup := setupBody (initial offsetWidth scroll0 ls next) in
  let stored := Storage.items ls !! storageKey in
  fst setup = Normal tt
  /\ (Storage.blocked ls = true \/ JS.isFinite (Number stored) = None ->
      savedPos (snd setup) == 0)
  /\ (forall q, Storage.blocked ls = false ->
      JS.isFinite (Number stored) = Some q ->
      savedPos (snd setup) = normalizeOffset offsetWidth q)
  /\ fst (persistPosition s) = Normal tt
  /\ (forall err,
      Storage.setItem storageKey (String (savedPos s)) (localStorage s)
      = inl err ->
      persistPosition s = (Normal tt, s)
      /\ persistCallback s = (Normal tt, set_persistTimer None s)
      /\ fst (tick ts (snd (persistCallback s))) = Normal tt
      /\ savedPos (snd (tick ts (snd (persistCallback s))))
         = savedPos (snd (tick ts s))
      /\ scrollLeft (snd (tick ts (snd (persistCallback s))))
         = scrollLeft (snd (tick ts s)))
  /\ fst (dispatch e s) = Normal tt.
Proof.
  intros setup stored. subst setup.
  split; [apply setup_normal |].
  rewrite setup_reads. unfold Storage.getItem. fold stored.
  split.
  { intros [Hb | Hn].
    - rewrite Hb. apply normalizeOffset_zero.
    - destruct (Storage.blocked ls); [apply normalizeOffset_zero |].
      rewrite Hn. apply normalizeOffset_zero. }
  split; [intros q Hb Hq; now rewrite Hb, Hq |].
  split; [now rewrite persistPosition_spec |].
  split; [| apply dispatch_normal].
  intros err Herr.
  split; [rewrite persistPosition_spec; now rewrite Herr |].
  rewrite (persistCallback_fails s err Herr). cbn [snd].
  split; [reflexivity |].
  split; [apply tick_normal |].
  rewrite tick_ignores_timer. split; reflexivity.
Qed.

End Properties.

(** ** Properties of the listeners in binary64 *)

Section Binary64.

Variable Number : option string -> JS.number.
Variable String : Q -> string.

(** A sum [setWidth + offset] with the offset in range stays between the
    band and the start of the next one. *)
Lemma double_add_band (w r : Q) :
  0 <= r -> r < w ->
  Double.representable w -> Double.representable (2 * w) ->
  w <= Double.add w r /\ Double.add w r <= 2 * w.
Proof.
  intros Hlo Hhi [Rw _] [R2w _]. unfold Double.add. split.
  - rewrite <- Rw at 1. apply round_mono. lra.
  - rewrite <- R2w. apply round_mono. lra.
Qed.

(** *** The scroll listener *)



(** *** Programmatic writes *)

(** What a listener writes: nothing, or one value under the flag; the
    scroll listener writes the middle-band position it computed, the
    others [setWidth + savedPos]. *)
Lemma double_exec_write (e : event) (s : state) :
  let s' := Double.exec String e s in
  written s' = written s
  \/ (written s' = (true, scrollLeft s') :: written s
      /\ 0 < setWidth s'
      /\ 0 <= savedPos s' < setWidth s'
      /\ (e <> ScrollEvent ->
          scrollLeft s' = Double.add (setWidth s') (savedPos s'))
      /\ (e = ScrollEvent ->
          scrollLeft s'
          = Double.normalizeToMiddleBand (setWidth s) (scrollLeft s)
          /\ setWidth s' = setWidth s
          /\ savedPos s'
             = Double.normalizeOffset (setWidth s')
                 (Double.sub (scrollLeft s') (setWidth s')))).
Proof.
  destruct e; double_run; try (left; reflexivity); right; js_tests;
    (split; [reflexivity |]); (split; [assumption |]);
    (split; [now apply double_normalizeOffset_bounds |]);
    (split; [intros C; first [reflexivity | now exfalso] |]);
    intros C; first [discriminate C | repeat split].
Qed.

Lemma double_setup_write (offsetWidth scroll0 : Q) (ls : Storage.t)
    (next : positive) :
  let s0 := snd (Double.setupBody Number
                   (initial offsetWidth scroll0 ls next)) in
  setWidth s0 = offsetWidth
  /\ autoWrite s0 = false
  /\ (0 < offsetWidth ->
      written s0 = [(true, scrollLeft s0)]
      /\ scrollLeft s0 = Double.add (setWidth s0) (savedPos s0)
      /\ 0 <= savedPos s0 < setWidth s0)
  /\ (offsetWidth <= 0 ->
      written s0 = [] /\ scrollLeft s0 = scroll0).
Proof.
  unfold initial.
  double_run; js_tests; (split; [reflexivity |]); (split; [reflexivity |]);
    (split; intros Hw; [try lra | try lra]);
    repeat split; try reflexivity;
    now apply double_normalizeOffset_bounds.
Qed.

Lemma double_exec_autoWrite (e : event) (s : state) :
  autoWrite s = false -> autoWrite (Double.exec String e s) = false.
Proof. destruct e; double_run; intros H; first [reflexivity | exact H]. Qed.

Lemma double_run_snoc (es : list event) (e : event) (s : state) :
  Double.run String (es ++ [e]) s
  = Double.exec String e (Double.run String es s).
Proof. unfold_double_run. now rewrite fold_left_app. Qed.


(** *** Where the script writes *)

Lemma double_exec_flagged (e : event) (s : state) :
  Forall (fun wr => fst wr = true) (written s) ->
  Forall (fun wr => fst wr = true) (written (Double.exec String e s)).
Proof.
  intros H. destruct (double_exec_write e s) as [E | (E & _)]; rewrite E.
  - exact H.
  - now constructor.
Qed.

(** X4: every assignment the scroller makes to [scrollLeft] is made with
    [autoWrite] up, and a listener makes at most one, which lands in the
    closed band [[setWidth, 2 * setWidth]]: in the middle band or, when
    the sum rounds up, at the start of the next one. *)
Theorem writes_are_flagged_and_in_middle_band (offsetWidth scroll0 : Q)
    (ls : Storage.t) (next : positive) (es : list event) (e : event) :
  let s := Double.run String es
             (snd (Double.setupBody Number
                     (initial offsetWidth scroll0 ls next))) in
  let s' := Double.exec String e s in
  Forall (fun wr => fst wr = true) (written s)
  /\ (written s' = written s
      \/ (written s' = (true, scrollLeft s') :: written s
          /\ 0 < setWidth s'
          /\ (Double.representable (setWidth s') ->
              Double.representable (2 * setWidth s') ->
              setWidth s' <= scrollLeft s' <= 2 * setWidth s'))).
Proof.
  intros s s'. split.
  - subst s s'. induction es as [| e' es IH] using rev_ind.
    + unfold_double_run. cbn [fold_left].
      destruct (double_setup_write offsetWidth scroll0 ls next)
        as (_ & _ & Hpos & Hneg).
      destruct (Qlt_le_dec 0 offsetWidth) as [H | H].
      * destruct (Hpos H) as [-> _]. now repeat constructor.
      * destruct (Hneg H) as [-> _]. constructor.
    + rewrite double_run_snoc. now apply double_exec_flagged.
  - destruct (double_exec_write e s) as [E | (E & Hw & Hr & H1 & H2)];
      [now left | right].
    fold s' in E, Hw, Hr, H1, H2.
    split; [exact E |]. split; [exact Hw |]. intros Rw R2w.
    assert (D : e = ScrollEvent \/ e <> ScrollEvent)
      by (destruct e; (now left) || (now right)).
    destruct D as [C | C].
    + destruct (H2 C) as (A & B & _). rewrite A, <- B.
      now apply double_normalizeToMiddleBand_bounds.
    + rewrite (H1 C). destruct Hr. now apply double_add_band.
Qed.

(** *** The offset stays inside the band *)

Lemma double_exec_offset_range (e : event) (s : state) :
  (0 < setWidth s -> 0 <= savedPos s < setWidth s) ->
  0 < setWidth (Double.exec String e s) ->
  0 <= savedPos (Double.exec String e s) < setWidth (Double.exec String e s).
Proof.
  destruct e; double_run; js_tests; intros Hs Hw;
    first [ now apply Hs
          | now apply double_normalizeOffset_bounds
          | lra ].
Qed.

Lemma double_setup_offset_range (offsetWidth scroll0 : Q) (ls : Storage.t)
    (next : positive) :
  let s0 := snd (Double.setupBody Number
                   (initial offsetWidth scroll0 ls next)) in
  0 < setWidth s0 -> 0 <= savedPos s0 < setWidth s0.
Proof.
  unfold initial. double_run; js_tests; intros Hw;
    first [now apply double_normalizeOffset_bounds | lra].
Qed.

(** X17: in binary64 as well, in every state the scroller reaches,
    whenever [setWidth > 0] the logical offset [savedPos] lies in
    [[0, setWidth)]: rounding never pushes it out of the band. *)
Theorem offset_stays_in_band_in_binary64 (offsetWidth scroll0 : Q)
    (ls : Storage.t) (next : positive) (es : list event) :
  let s := Double.run String es
             (snd (Double.setupBody Number
                     (initial offsetWidth scroll0 ls next))) in
  0 < setWidth s -> 0 <= savedPos s < setWidth s.
Proof.
  induction es as [| e es IH] using rev_ind.
  - apply double_setup_offset_range.
  - cbv zeta in *. rewrite double_run_snoc.
    now apply double_exec_offset_range.
Qed.

(** *** The animation tick and the resize *)

Lemma double_tick_running (ts : Q) (s : state) :
  paused s = false -> 0 < setWidth s ->
  let last := if JS.falsy (lastTs s) then ts else lastTs s in
  let deltaSeconds := Double.div (Double.sub ts last) 1000 in
  let pos := Double.normalizeOffset (setWidth s)
               (Double.add (savedPos s)
                  (Double.mul speedPxPerSecond deltaSeconds)) in
  snd (Double.tick ts s)
  = set_frameCallbacks (S (frameCallbacks s))
      (set_autoWrite false
         (assign_scrollLeft (Double.add (setWidth s) pos)
            (set_autoWrite true
               (set_savedPos pos (set_lastTs ts s))))).
Proof.
  intros Hp Hw. apply gt0_true in Hw.
  double_unfold. js_simpl. destruct s; cbn in *. subst.
  destruct (JS.falsy lastTs0) eqn:F; cbn; rewrite Hw; cbn; reflexivity.
Qed.

(** X18: the animation tick in binary64.  With [paused = false] and
    [setWidth > 0] the offset becomes
    [normalizeOffset (savedPos + 30 * ((ts - lastTs) / 1000))] with each
    operation rounded, the elapsed time being measured from [ts] itself
    while [lastTs] is still [0]; it lies in [[0, setWidth)], and the
    position written under the flag is [setWidth + savedPos], between
    [setWidth] and [2 * setWidth].  On the first frame the offset is
    normalised again, which can move it by a rounding error.  At width
    1000 and offset 990, one second gives 20 and 1020. *)
Theorem tick_advances_in_binary64 (ts : Q) (s : state) :
  paused s = false ->
  0 < setWidth s ->
  let w := setWidth s in
  let last := if JS.falsy (lastTs s) then ts else lastTs s in
  let deltaSeconds := Double.div (Double.sub ts last) 1000 in
  let s' := snd (Double.tick ts s) in
  savedPos s'
  = Double.normalizeOffset w
      (Double.add (savedPos s) (Double.mul speedPxPerSecond deltaSeconds))
  /\ 0 <= savedPos s' < w
  /\ scrollLeft s' = Double.add w (savedPos s')
  /\ (Double.representable w -> Double.representable (2 * w) ->
      w <= scrollLeft s' <= 2 * w)
  /\ written s' = (true, scrollLeft s') :: written s
  /\ autoWrite s' = false
  /\ lastTs s' = ts
  /\ setWidth s' = w
  /\ (lastTs s == 0 ->
      savedPos s' == Double.normalizeOffset w (Double.round (savedPos s)))
  /\ (w == 1000 -> savedPos s == 990 -> ~ lastTs s == 0 ->
      ts - lastTs s == 1000 ->
      savedPos s' == 20 /\ scrollLeft s' == 1020).
Proof.
  intros Hp Hw w last deltaSeconds s'. subst s'.
  rewrite (double_tick_running ts s Hp Hw). cbn.
  fold w last deltaSeconds.
  set (pos := Double.normalizeOffset w
                (Double.add (savedPos s)
                   (Double.mul speedPxPerSecond deltaSeconds))).
  assert (Hr : 0 <= pos < w) by now apply double_normalizeOffset_bounds.
  split; [reflexivity |]. split; [exact Hr |].
  split; [reflexivity |].
  split; [intros Rw R2w; destruct Hr; now apply double_add_band |].
  split; [reflexivity |]. split; [reflexivity |].
  split; [reflexivity |]. split; [reflexivity |].
  split.
  - intros Z. subst pos deltaSeconds last.
    rewrite (proj2 (falsy_true _) Z).
    assert (E : Double.add (savedPos s)
                  (Double.mul speedPxPerSecond
                     (Double.div (Double.sub ts ts) 1000))
                == Double.round (savedPos s)).
    { unfold Double.sub.
      assert (E0 : ts - ts == 0) by ring.
      rewrite E0. unfold Double.add.
      apply round_Proper. vm_compute (Double.div _ _).
      vm_compute (Double.mul _ _). ring. }
    now rewrite E.
  - intros Ew Ep NZ Et. subst pos deltaSeconds last.
    assert (F : JS.falsy (lastTs s) = false).
    { destruct (JS.falsy (lastTs s)) eqn:F; [| reflexivity].
      apply falsy_true in F. contradiction. }
    rewrite F. unfold Double.sub. rewrite Et, Ew, Ep.
    split; vm_compute; reflexivity.
Qed.

(** X19: the resize listener in binary64.  With the new and the previous
    width positive, the offset becomes
    [normalizeOffset ((savedPos / prevWidth) * setWidth)] with the
    division and the product rounded; it lies in [[0, setWidth)] for the
    new width, and the position written under the flag is
    [setWidth + savedPos], between [setWidth] and [2 * setWidth].  From
    width 1000 to 2000 at offset 500 the offset is 1000. *)
Theorem resize_rescales_in_binary64 (offsetWidth : Q) (s : state) :
  0 < offsetWidth ->
  0 < setWidth s ->
  let s' := snd (Double.onResize offsetWidth s) in
  setWidth s' = offsetWidth
  /\ savedPos s'
     = Double.normalizeOffset offsetWidth
         (Double.mul (Double.div (savedPos s) (setWidth s)) offsetWidth)
  /\ 0 <= savedPos s' < offsetWidth
  /\ scrollLeft s' = Double.add offsetWidth (savedPos s')
  /\ (Double.representable offsetWidth ->
      Double.representable (2 * offsetWidth) ->
      offsetWidth <= scrollLeft s' <= 2 * offsetWidth)
  /\ written s' = (true, scrollLeft s') :: written s
  /\ autoWrite s' = false
  /\ (setWidth s == 1000 -> offsetWidth == 2000 -> savedPos s == 500 ->
      savedPos s' == 1000 /\ scrollLeft s' == 3000).
Proof.
  intros Hnew Hold s'. subst s'.
  assert (Tnew : JS.le0 offsetWidth = false) by now apply le0_false.
  assert (Told : JS.gt0 (setWidth s) = true) by now apply gt0_true.
  double_unfold. js_simpl. destruct s; cbn in *.
  rewrite Tnew, Told; cbn.
  set (pos := Double.normalizeOffset offsetWidth
                (Double.mul (Double.div savedPos0 setWidth0) offsetWidth)).
  assert (Hr : 0 <= pos < offsetWidth)
    by now apply double_normalizeOffset_bounds.
  split; [reflexivity |]. split; [reflexivity |]. split; [exact Hr |].
  split; [reflexivity |].
  split; [intros Rw R2w; destruct Hr; now apply double_add_band |].
  split; [reflexivity |]. split; [reflexivity |].
  intros Ew En Ep. subst pos. rewrite Ew, En, Ep.
  split; vm_compute; reflexivity.
Qed.

End Binary64.

(** ** Closed instances *)

(** Width 1000 and the stored text "250": setup shows position 1250. *)
Example setup_restores_250 :
  let s0 := snd (setupBody Sample.Number
                   (initial 1000 0 (Sample.storage (Some "250") false false) 1))
  in savedPos s0 == 250 /\ scrollLeft s0 == 1250.
Proof. split; reflexivity. Qed.






Lemma paused_tick_only_rebaselines_witness :
  paused (Sample.scroller true 990 1990) = true
  /\ savedPos (snd (tick 5500 (Sample.scroller true 990 1990))) = 990
  /\ scrollLeft (snd (tick 5500 (Sample.scroller true 990 1990))) = 1990
  /\ exec Sample.String (Frame 5500) (Sample.scroller true 990 1990)
     = set_lastTs 5500 (Sample.scroller true 990 1990).
Proof.
  pose proof (paused_tick_only_rebaselines Sample.String 5500
                (Sample.scroller true 990 1990) eq_refl) as H.
  cbv zeta in H.
  destruct H as (_ & Hp & Hx & _ & _ & _ & Hf).
  split; [reflexivity |]. split; [exact Hp |]. split; [exact Hx |].
  exact (Hf 0%nat eq_refl).
Defined.

Lemma storage_failures_are_harmless_witness :
  Storage.blocked (Sample.storage (Some "250") true false) = true
  /\ savedPos
       (snd (setupBody Sample.Number
               (initial 1000 0 (Sample.storage (Some "250") true false) 1)))
     == 0
  /\ fst (persistPosition Sample.String
            (set_localStorage (Sample.storage None false true)
               (Sample.scroller false 990 1990)))
     = Normal tt.
Proof.
  pose proof (storage_failures_are_harmless Sample.Number Sample.String
                1000 0 (Sample.storage (Some "250") true false) 1
                (set_localStorage (Sample.storage None false true)
                   (Sample.scroller false 990 1990))
                (TimerFired 1) 6000) as H.
  cbv zeta in H.
  destruct H as (_ & Hread & _ & Hwrite & _).
  split; [reflexivity |].
  split; [apply Hread; left; reflexivity | exact Hwrite].
Defined.

Lemma persist_timer_single_slot_witness :
  (size (timeouts
           (run Sample.String
              [UserScroll 999; ScrollEvent; UserScroll 1200; ScrollEvent]
              (snd (setupBody Sample.Number
                      (initial 1000 0 (Sample.storage None false false) 1)))))
   <= 1)%nat.
Proof.
  pose proof (persist_timer_single_slot Sample.Number Sample.String
                1000 0 (Sample.storage None false false) 1
                [UserScroll 999; ScrollEvent; UserScroll 1200; ScrollEvent])
    as H.
  cbv zeta in H.
  destruct H as (_ & H & _).
  exact H.
Defined.

Lemma nonpositive_width_discards_restored_offset_witness :
  0 <= 0
  /\ Forall measures_no_width [Frame 16; Resize 0; UserScroll 5; ScrollEvent]
  /\ 0 < 1000
  /\ savedPos
       (exec Sample.String (Resize 1000)
          (run Sample.String [Frame 16; Resize 0; UserScroll 5; ScrollEvent]
             (snd (setupBody Sample.Number
                     (initial 0 0 (Sample.storage (Some "250") false false)
                        1)))))
     == 0.
Proof.
  assert (Hw : 0 <= 0) by discriminate.
  assert (Hes : Forall measures_no_width
                  [Frame 16; Resize 0; UserScroll 5; ScrollEvent]).
  { constructor; [exact I |]. constructor; [exact Hw |].
    constructor; [exact I |]. constructor; [exact I |]. constructor. }
  assert (Hn : 0 < 1000) by reflexivity.
  pose proof (nonpositive_width_discards_restored_offset
                Sample.Number Sample.String
                0 0 (Sample.storage (Some "250") false false) 1
                [Frame 16; Resize 0; UserScroll 5; ScrollEvent] 1000
                Hw Hes Hn) as H.
  cbv zeta in H.
  destruct H as (_ & _ & _ & _ & _ & H & _).
  split; [exact Hw |]. split; [exact Hes |]. split; [exact Hn | exact H].
Defined.

(** The same page with a measured width keeps the stored offset: the
    discarding above is the doing of the missing width. *)
Example positive_width_keeps_restored_offset :
  savedPos
    (exec Sample.String (Resize 2000)
       (snd (setupBody Sample.Number
               (initial 1000 0 (Sample.storage (Some "250") false false) 1))))
  == 500.
Proof. reflexivity. Qed.

(** ** Further properties of the scroller *)

Section Scrolling.

Variable Number : option string -> JS.number.
Variable String : Q -> string.

Abbreviation exec := (exec String).
Abbreviation dispatch := (dispatch String).
Abbreviation run := (run String).
Abbreviation setupBody := (setupBody Number).

Lemma run_snoc (es : list event) (e : event) (s : state) :
  run (es ++ [e]) s = exec e (run es s).
Proof. unfold_run. now rewrite fold_left_app. Qed.

(** *** The offset stays inside the band *)




(** *** Hovering *)




(** *** Persisting *)

Lemma onPageHide_stores (s : state) :
  Storage.blocked (localStorage s) = false ->
  Storage.full (localStorage s) = false ->
  localStorage (exec PageHide s)
  = {| Storage.items :=
         <[storageKey := String (savedPos s)]>
           (Storage.items (localStorage s));
       Storage.blocked := false; Storage.full := false |}.
Proof.
  intros Hb Hf. js_run;
    match goal with
    | H : Storage.setItem _ _ _ = _ |- _ =>
        unfold Storage.setItem in H; rewrite Hb, Hf in H;
        inversion H; subst; clear H
    end; reflexivity.
Qed.

(** *** Debouncing *)

Lemma exec_scrolling (e : event) (s : state) :
  is_scrolling e ->
  localStorage (exec e s) = localStorage s
  /\ setWidth (exec e s) = setWidth s.
Proof.
  destruct e; cbn [is_scrolling]; intros He; try contradiction;
    js_run; split; reflexivity.
Qed.

Lemma run_scrolling (es : list event) (s : state) :
  Forall is_scrolling es ->
  localStorage (run es s) = localStorage s
  /\ setWidth (run es s) = setWidth s.
Proof.
  intros Hes. revert s. induction Hes as [| e es He _ IH]; intros s.
  - split; reflexivity.
  - rewrite (run_cons String).
    destruct (exec_scrolling e s He) as [<- <-]. apply IH.
Qed.

Lemma timer_fires (id : positive) (s : state) :
  timeouts s = {[id]} ->
  let fired := exec (TimerFired id) s in
  persistTimer fired = None
  /\ timeouts fired = ∅
  /\ savedPos fired = savedPos s
  /\ scrollLeft fired = scrollLeft s
  /\ (Storage.blocked (localStorage s) = false ->
      Storage.full (localStorage s) = false ->
      Storage.items (localStorage fired) !! storageKey
      = Some (String (savedPos s))).
Proof.
  intros Ht. js_run;
    try match goal with
        | H : _ ∉ timeouts s |- _ =>
            exfalso; apply H; rewrite Ht; now apply elem_of_singleton
        end;
    rewrite Ht, difference_diag_L;
    (split; [reflexivity |]); (split; [reflexivity |]);
    (split; [reflexivity |]); (split; [reflexivity |]); intros Hb Hf;
    match goal with
    | H : Storage.setItem _ _ _ = _ |- _ =>
        unfold Storage.setItem in H; rewrite Hb, Hf in H;
        inversion H; subst; clear H
    end;
    js_cbn; apply lookup_insert_eq.
Qed.

Lemma timer_cancelled (id : positive) (s : state) :
  id ∉ timeouts s -> exec (TimerFired id) s = s.
Proof. intros H. js_run; first [contradiction | reflexivity]. Qed.

Lemma onScroll_timeouts (s : state) :
  single_slot s -> autoWrite s = false -> 0 < setWidth s ->
  timeouts (exec ScrollEvent s) = {[nextTimeout s]}.
Proof.
  unfold single_slot. intros Hslot Hflag Hw. revert Hslot.
  js_run;
    try match goal with
        | H : _ || _ = true |- _ =>
            apply orb_true_iff in H; destruct H; js_tests;
            first [congruence | lra]
        end;
    js_tests; try lra; intros ->;
    rewrite ?difference_diag_L, ?(right_id_L ∅ (∪)); reflexivity.
Qed.

(** X8: scrolling only schedules: however many scroll events arrive in a
    row, nothing is written to storage meanwhile and, after the last one,
    exactly one timer is pending; a timer cancelled on the way does
    nothing should it still fire, and the pending one, when it fires,
    stores the offset of the last scroll event and leaves none pending. *)
Theorem scroll_burst_is_debounced (offsetWidth scroll0 : Q)
    (ls : Storage.t) (next : positive) (es burst : list event) :
  let s := run es (snd (setupBody (initial offsetWidth scroll0 ls next))) in
  let s' := exec ScrollEvent (run burst s) in
  Forall is_scrolling burst ->
  0 < setWidth s ->
  localStorage s' = localStorage s
  /\ exists id,
      persistTimer s' = Some id
      /\ timeouts s' = {[id]}
      /\ (forall old, old <> id -> exec (TimerFired old) s' = s')
      /\ persistTimer (exec (TimerFired id) s') = None
      /\ timeouts (exec (TimerFired id) s') = ∅
      /\ (Storage.blocked (localStorage s) = false ->
          Storage.full (localStorage s) = false ->
          Storage.items (localStorage (exec (TimerFired id) s')) !! storageKey
          = Some (String (savedPos s'))).
Proof.
  intros s s' Hburst Hw.
  destruct (run_scrolling burst s Hburst) as [Hls Hsw].
  destruct (exec_scrolling ScrollEvent (run burst s) I) as [Hls' _].
  fold s' in Hls'.
  assert (Hreach : run burst s
                   = run (es ++ burst)
                       (snd (setupBody (initial offsetWidth scroll0 ls next)))).
  { subst s. now rewrite (run_app String). }
  destruct (setup_slot Number offsetWidth scroll0 ls next) as [Hs0 Hi0].
  destruct (run_slot String (es ++ burst) _ Hs0 Hi0) as [Hslot _].
  rewrite <- Hreach in Hslot.
  pose proof (flag_down_between_listeners Number String
                offsetWidth scroll0 ls next (es ++ burst)) as Hflag.
  rewrite <- Hreach in Hflag.
  assert (Hw' : 0 < setWidth (run burst s)) by now rewrite Hsw.
  destruct (onScroll_user (run burst s) Hflag Hw') as (_ & _ & _ & Hpt & _).
  pose proof (onScroll_timeouts (run burst s) Hslot Hflag Hw') as Hto.
  fold s' in Hto.
  split; [now rewrite Hls', Hls |].
  exists (nextTimeout (run burst s)).
  split; [exact Hpt |]. split; [exact Hto |].
  split.
  { intros old Hold. apply timer_cancelled. rewrite Hto.
    now intros ->%elem_of_singleton. }
  destruct (timer_fires _ s' Hto) as (Fp & Ft & _ & _ & Fs).
  split; [exact Fp |]. split; [exact Ft |].
  intros Hb Hf. apply Fs; now rewrite Hls', Hls.
Qed.

(** *** A container without width *)

Lemma exec_inert (e : event) (s : state) :
  measures_no_width e ->
  setWidth s <= 0 -> savedPos s = 0 -> written s = [] ->
  persistTimer s = None -> timeouts s = ∅ ->
  setWidth (exec e s) <= 0
  /\ savedPos (exec e s) = 0
  /\ written (exec e s) = []
  /\ persistTimer (exec e s) = None
  /\ timeouts (exec e s) = ∅.
Proof.
  destruct e; cbn [measures_no_width]; intros Hm Hw Hp Hwr Hpt Hto;
    js_run; js_tests; try lra; try congruence;
    repeat match goal with H : decide _ = _ |- _ => clear H end;
    try match goal with
        | H : _ ∈ timeouts _ |- _ =>
            rewrite Hto in H; now apply not_elem_of_empty in H
        end;
    repeat split; assumption.
Qed.

(** X9: a scroller set up over a container without width is inert for as
    long as no positive width is measured: it never writes [scrollLeft],
    its offset stays 0 and scroll events schedule no timer; yet a
    page-hide in that time still flushes, so the offset kept in storage
    is replaced by that of 0. *)
Theorem zero_width_scroller_is_inert (offsetWidth scroll0 : Q)
    (ls : Storage.t) (next : positive) (es : list event) :
  offsetWidth <= 0 ->
  Forall measures_no_width es ->
  let s := run es (snd (setupBody (initial offsetWidth scroll0 ls next))) in
  written s = []
  /\ savedPos s = 0
  /\ persistTimer s = None
  /\ timeouts s = ∅
  /\ (Storage.blocked (localStorage s) = false ->
      Storage.full (localStorage s) = false ->
      Storage.items (localStorage (exec PageHide s)) !! storageKey
      = Some (String 0)).
Proof.
  intros Hw Hes s.
  assert (H : setWidth s <= 0 /\ savedPos s = 0 /\ written s = []
              /\ persistTimer s = None /\ timeouts s = ∅).
  { subst s. revert Hes. induction es as [| e es IH] using rev_ind; intros Hes.
    - unfold_run. cbn [fold_left].
      destruct (setup_write Number offsetWidth scroll0 ls next)
        as (Hsw & _ & _ & Hneg).
      destruct (Hneg Hw) as (Hwr & _ & Hp).
      destruct (setup_slot Number offsetWidth scroll0 ls next) as [Hs _].
      unfold single_slot in Hs.
      assert (Hpt : persistTimer
                      (snd (setupBody (initial offsetWidth scroll0 ls next)))
                    = None).
      { unfold initial. js_run; reflexivity. }
      rewrite Hpt in Hs. rewrite Hsw. repeat split; assumption.
    - apply Forall_app in Hes as [Hes He]. rewrite Forall_singleton in He.
      rewrite run_snoc. destruct (IH Hes) as (A & B & C & D & E).
      now apply exec_inert. }
  destruct H as (_ & Hp & Hwr & Hpt & Hto).
  split; [exact Hwr |]. split; [exact Hp |].
  split; [exact Hpt |]. split; [exact Hto |].
  intros Hb Hf. rewrite (onPageHide_stores s Hb Hf).
  cbn [Storage.items]. rewrite Hp. apply lookup_insert_eq.
Qed.

End Scrolling.

(** ** Properties of the gallery page *)

Lemma inject_Z_le_floor (i : Z) (q : Q) :
  inject_Z i <= q <-> (i <= Qfloor q)%Z.
Proof.
  split; intros H.
  - rewrite <- (Qfloor_Z i). now apply Qfloor_resp_le.
  - rewrite Zle_Qle in H. pose proof (Qfloor_le q). lra.
Qed.

Lemma pushImages_from (fuel : nat) (basePath : string) (imageCount : Q)
    (i : Z) (commissionImages : list string) :
  (Qfloor imageCount - i + 1 <= Z.of_nat fuel)%Z ->
  pushImages fuel basePath imageCount i commissionImages
  = commissionImages
    ++ (imagePath basePath <$> seqZ i (Qfloor imageCount - i + 1)).
Proof.
  revert i commissionImages.
  induction fuel as [| fuel IH]; intros i acc Hfuel; cbn [pushImages];
    destruct (Qle_bool (inject_Z i) imageCount) eqn:T.
  - apply Qle_bool_iff, inject_Z_le_floor in T. exfalso. lia.
  - rewrite seqZ_nil; [now rewrite app_nil_r |].
    destruct (Z_lt_le_dec (Qfloor imageCount) i) as [H | H]; [lia |].
    apply inject_Z_le_floor, Qle_bool_iff in H. congruence.
  - apply Qle_bool_iff, inject_Z_le_floor in T.
    rewrite IH by lia. rewrite (seqZ_cons i) by lia.
    rewrite fmap_cons, <- app_assoc. cbn [app].
    replace (Z.pred (Qfloor imageCount - i + 1))
      with (Qfloor imageCount - (i + 1) + 1)%Z by lia.
    reflexivity.
  - rewrite seqZ_nil; [now rewrite app_nil_r |].
    destruct (Z_lt_le_dec (Qfloor imageCount) i) as [H | H]; [lia |].
    apply inject_Z_le_floor, Qle_bool_iff in H. congruence.
Qed.

(** X12: the loop that lists the images of a commission ends by its own
    test and yields the paths [1.webp], [2.webp], ... up to the integer
    part of [imageCount], in that order; a count below 1 yields none. *)
Theorem pushImages_numbers_the_images (fuel : nat) (basePath : string)
    (imageCount : Q) :
  (Z.to_nat (Qfloor imageCount) <= fuel)%nat ->
  let commissionImages := pushImages fuel basePath imageCount 1 [] in
  commissionImages = imagePath basePath <$> seqZ 1 (Qfloor imageCount)
  /\ length commissionImages = Z.to_nat (Qfloor imageCount)
  /\ (forall k : nat, (k < Z.to_nat (Qfloor imageCount))%nat ->
        commissionImages !! k
        = Some (basePath +:+ pretty (Z.of_nat k + 1)%Z +:+ ".webp"))
  /\ (imageCount < 1 -> commissionImages = []).
Proof.
  intros Hfuel commissionImages.
  assert (E : commissionImages
              = imagePath basePath <$> seqZ 1 (Qfloor imageCount)).
  { subst commissionImages. rewrite pushImages_from by lia.
    cbn [app]. do 2 f_equal. lia. }
  split; [exact E |]. rewrite E.
  split; [now rewrite length_fmap, length_seqZ |].
  split.
  - intros k Hk. rewrite list_lookup_fmap, lookup_seqZ_lt by lia.
    cbn. unfold imagePath. now rewrite (Z.add_comm 1).
  - intros Hlt. rewrite seqZ_nil; [reflexivity |].
    destruct (Z_lt_le_dec (Qfloor imageCount) 1) as [H | H]; [lia |].
    apply inject_Z_le_floor in H. change (inject_Z 1) with 1 in H. lra.
Qed.

Lemma pushImages_numbers_the_images_witness :
  (Z.to_nat (Qfloor (5 # 2)) <= 7)%nat
  /\ pushImages 7 "data/commission/owl/" (5 # 2) 1 []
     = ["data/commission/owl/1.webp"; "data/commission/owl/2.webp"].
Proof.
  assert (H : (Z.to_nat (Qfloor (5 # 2)) <= 7)%nat) by (vm_compute; lia).
  split; [exact H |].
  rewrite (proj1 (pushImages_numbers_the_images 7 "data/commission/owl/"
                    (5 # 2) H)).
  reflexivity.
Defined.

Lemma skipped_false (commission : Data.commission) :
  skipped commission = false
  <-> exists n, Data.imageCount commission = Some n /\ 0 < n.
Proof.
  unfold skipped. destruct (Data.imageCount commission) as [n |].
  - rewrite orb_false_iff, le0_false. split.
    + intros [_ H]. now exists n.
    + intros (m & [= <-] & H). split; [| exact H].
      destruct (JS.falsy n) eqn:F; [| reflexivity].
      apply falsy_true in F. lra.
  - split; [discriminate | intros (n & E & _); discriminate].
Qed.

Lemma addCommission_listed (images : list Entry.t)
    (commission : Data.commission) :
  addCommission images commission
  = images ++ (if skipped commission then [] else [listed commission]).
Proof.
  unfold addCommission, listed.
  destruct (skipped commission); [now rewrite app_nil_r |].
  rewrite pushImages_from by lia. cbn [app].
  replace (Qfloor (default 0%Q (Data.imageCount commission)) - 1 + 1)%Z
    with (Qfloor (default 0%Q (Data.imageCount commission))) by lia.
  reflexivity.
Qed.

Lemma fold_addCommission (commissions : list Data.commission)
    (images : list Entry.t) :
  fold_left addCommission commissions images
  = images
    ++ (listed <$> filter (fun c => skipped c = false) commissions).
Proof.
  revert images. induction commissions as [| c cs IH]; intros images.
  - now rewrite app_nil_r.
  - cbn [fold_left]. rewrite IH, addCommission_listed, filter_cons.
    destruct (skipped c) eqn:S; rewrite <- app_assoc.
    + rewrite decide_False by discriminate. reflexivity.
    + rewrite decide_True by reflexivity. reflexivity.
Qed.

(** X13: the gallery lists exactly the commissions whose [imageCount] is a
    positive number, in the order of the data file, after what it listed
    before; each one under its slug, titled by its title or, failing
    that, by its slug, with its images numbered from 1. *)
Theorem gallery_lists_commissions_with_images
    (commissions : list Data.commission) (images : list Entry.t) :
  fold_left addCommission commissions images
  = images ++ (listed <$> filter (fun c => skipped c = false) commissions)
  /\ (forall c, skipped c = false
               <-> exists n, Data.imageCount c = Some n /\ 0 < n)
  /\ (forall c, Entry.title (listed c)
               = match Data.title c with
                 | Some t => if decide (t = "") then Data.slug c else t
                 | None => Data.slug c
                 end)
  /\ (forall c, length (Entry.images (listed c))
               = Z.to_nat (Qfloor (default 0 (Data.imageCount c)))).
Proof.
  split; [apply fold_addCommission |].
  split; [apply skipped_false |].
  split.
  - intros c. cbn. unfold titleOf. destruct (Data.title c) as [t |]; [| easy].
    destruct (String.eqb_spec t ""); now case_decide.
  - intros c. cbn. now rewrite length_fmap, length_seqZ.
Qed.

(** *** Rendering and waiting for the middle band *)

Lemma onImgReady_counts (p : page) :
  let q := onImgReady p in
  href q = href p /\ preloaderHidden q = preloaderHidden p
  /\ containerHidden q = containerHidden p /\ images q = images p
  /\ bands q = bands p /\ total q = total p
  /\ lightboxHidden q = lightboxHidden p /\ lightboxSrc q = lightboxSrc p
  /\ listening q = listening p
  /\ loaded q = S (loaded p)
  /\ ((0 < total p)%nat ->
      (scrollers q + (loaded p + 1 - total p)
       = scrollers p + (loaded q + 1 - total p))%nat)
  /\ ((loaded q < total p)%nat -> scrollers q = scrollers p).
Proof.
  unfold onImgReady. cbn.
  destruct (total p <=? S (loaded p))%nat eqn:T; cbn;
    [apply Nat.leb_le in T | apply Nat.leb_gt in T];
    repeat split; try reflexivity; intros; lia.
Qed.

Lemma settle_counts (complete : nat -> bool) (l : list nat) (p : page) :
  let q := fold_left
             (fun p i => if complete i then onImgReady p else listen i p)
             l p in
  href q = href p /\ preloaderHidden q = preloaderHidden p
  /\ containerHidden q = containerHidden p /\ images q = images p
  /\ bands q = bands p /\ total q = total p
  /\ lightboxHidden q = lightboxHidden p /\ lightboxSrc q = lightboxSrc p
  /\ listening q
     = listening p ++ filter (fun i => complete i = false) l
  /\ loaded q
     = (loaded p + length (filter (fun i => complete i = true) l))%nat
  /\ ((0 < total p)%nat ->
      (scrollers q + (loaded p + 1 - total p)
       = scrollers p + (loaded q + 1 - total p))%nat).
Proof.
  revert p. induction l as [| i l IH]; intros p; cbn [fold_left].
  - cbn. rewrite app_nil_r, Nat.add_0_r. repeat split; try reflexivity.
  - rewrite !filter_cons.
    destruct (complete i) eqn:C.
    + destruct (onImgReady_counts p)
        as (A1 & A2 & A3 & A4 & A5 & A6 & A7 & A8 & A9 & A10 & A11 & _).
      destruct (IH (onImgReady p))
        as (B1 & B2 & B3 & B4 & B5 & B6 & B7 & B8 & B9 & B10 & B11).
      cbv zeta in *.
      rewrite decide_False by discriminate.
      rewrite decide_True by reflexivity.
      rewrite B1, B2, B3, B4, B5, B6, B7, B8, B9, B10,
        A1, A2, A3, A4, A5, A6, A7, A8, A9, A10.
      cbn [length]. rewrite A6, A10 in B11.
      repeat split; try reflexivity; try lia.
    + destruct (IH (listen i p))
        as (B1 & B2 & B3 & B4 & B5 & B6 & B7 & B8 & B9 & B10 & B11).
      cbv zeta in *.
      rewrite decide_True by reflexivity.
      rewrite decide_False by discriminate.
      cbn in B11. rewrite B10 in B11. cbn in B11.
      rewrite B1, B2, B3, B4, B5, B6, B7, B8, B9, B10. cbn.
      rewrite <- app_assoc. repeat split; try reflexivity.
      now apply B11.
Qed.

Lemma render_counts (complete : nat -> bool) (p : page) :
  let band := buildSet (images p) in
  let indices := seq 0 (length (concat band)) in
  let r := renderHorizontalScroll complete p in
  href r = href p /\ preloaderHidden r = preloaderHidden p
  /\ containerHidden r = containerHidden p /\ images r = images p
  /\ bands r = [band; band; band]
  /\ total r = length (concat band)
  /\ lightboxHidden r = lightboxHidden p /\ lightboxSrc r = lightboxSrc p
  /\ listening r = filter (fun i => complete i = false) indices
  /\ loaded r = length (filter (fun i => complete i = true) indices)
  /\ scrollers r = (scrollers p + (loaded r + 1 - total r))%nat.
Proof.
  intros band indices r. subst r. unfold renderHorizontalScroll.
  fold band. cbn [total set_counters].
  destruct (length (concat band) =? 0)%nat eqn:T.
  - apply Nat.eqb_eq in T. subst indices. rewrite T. cbn.
    rewrite ?T. repeat split; try reflexivity; lia.
  - apply Nat.eqb_neq in T.
    destruct (settle_counts complete indices
                (set_counters 0 (length (concat band)) []
                   (set_bands [band; band; band] p)))
      as (B1 & B2 & B3 & B4 & B5 & B6 & B7 & B8 & B9 & B10 & B11).
    cbv zeta in *. fold indices.
    rewrite B1, B2, B3, B4, B5, B6, B7, B8, B9, B10. cbn in *.
    repeat split; try reflexivity.
    specialize (B11 ltac:(lia)). rewrite B10 in B11. cbn in B11. lia.
Qed.

Lemma forCommissions_returns (elements : list (option Data.commission))
    (images : list Entry.t) :
  hasNull elements = false ->
  forCommissions elements images
  = (false, fold_left addCommission (omap id elements) images).
Proof.
  revert images. induction elements as [| [c |] l IH]; intros images H.
  - reflexivity.
  - cbn [forCommissions]. now rewrite IH.
  - discriminate.
Qed.

Lemma forCommissions_throws (elements : list (option Data.commission))
    (images : list Entry.t) :
  hasNull elements = true ->
  exists images', forCommissions elements images = (true, images').
Proof.
  revert images. induction elements as [| [c |] l IH]; intros images H.
  - discriminate.
  - cbn [forCommissions]. now apply IH.
  - now exists images.
Qed.

(** The three ways [init] ends. *)
Lemma init_cases (response : fetched) (complete : nat -> bool) :
  let p := set_images (listed <$> shown response) blank in
  (throws response = true ->
     exists images', init response complete = set_images images' blank)
  /\ (throws response = false -> shown response = [] ->
      init response complete
      = setupEventListeners (navigate "index.html" blank))
  /\ (throws response = false -> shown response <> [] ->
      init response complete
      = setupEventListeners (renderHorizontalScroll complete (reveal p))).
Proof.
  unfold init, loadCommissionImages, throws, shown.
  destruct response as [| [|] [| | d]].
  1-2, 5-7:
    (split; [intros H; discriminate H |];
     split; intros H Hs; [reflexivity | exfalso; now apply Hs]).
  - split; [intros _; now exists [] |].
    split; intros H; discriminate H.
  - destruct (Data.commissions d) as [| elements |].
    + split; [intros H; discriminate H |].
      split; intros H Hs; [reflexivity | exfalso; now apply Hs].
    + destruct elements as [| e l].
      { split; [intros H; discriminate H |].
        split; intros H Hs; [reflexivity | exfalso; now apply Hs]. }
      set (elements := e :: l). clearbody elements.
      split; [| split].
      * intros H.
        destruct (forCommissions_throws elements (images blank) H)
          as (images' & ->).
        now exists images'.
      * intros H Hs. rewrite H in Hs.
        rewrite (forCommissions_returns _ _ H), fold_addCommission.
        cbn [images blank app]. now rewrite Hs.
      * intros H Hs. rewrite H in Hs |- *.
        rewrite (forCommissions_returns _ _ H), fold_addCommission.
        cbn [images blank app].
        destruct (filter _ (omap id elements)) as [| c' l'];
          [congruence | reflexivity].
    + split; [intros _; now exists [] |].
      split; intros H; discriminate H.
Qed.

(** X14: [init] ends in one of three ways.  When the body is [null], or
    [commissions] is not iterable or holds a [null], the loader throws
    outside its [try]: the page stays on commission.html behind the
    preloader, with nothing rendered and without the listeners of
    [setupEventListeners].  Otherwise the page leaves for index.html
    exactly when it has nothing to show (the request failed, the answer
    was not ok or not JSON, the commission list is missing or empty, or
    no commission has a positive [imageCount]), and renders nothing; and
    when it has something to show it stays, hides the preloader, shows
    the container and fills it with three equal bands of the listed
    commissions. *)
Theorem page_redirects_exactly_without_images (response : fetched)
    (complete : nat -> bool) :
  let p := init response complete in
  let band := buildSet (listed <$> shown response) in
  (throws response = true ->
     href p = "commission.html" /\ preloaderHidden p = false
     /\ containerHidden p = true /\ bands p = [] /\ scrollers p = 0%nat
     /\ eventListeners p = false
     /\ forall e, href (handle e p) = "commission.html")
  /\ (throws response = false -> shown response = [] ->
      href p = "index.html" /\ containerHidden p = true
      /\ bands p = [] /\ scrollers p = 0%nat /\ eventListeners p = true)
  /\ (throws response = false -> shown response <> [] ->
      href p = "commission.html" /\ preloaderHidden p = true
      /\ containerHidden p = false
      /\ images p = listed <$> shown response
      /\ bands p = [band; band; band]
      /\ eventListeners p = true).
Proof.
  intros p band. subst p.
  destruct (init_cases response complete) as (C1 & C2 & C3).
  cbv zeta in *.
  split; [| split].
  - intros H. destruct (C1 H) as (images' & ->).
    repeat split.
    intros e. destruct e; reflexivity.
  - intros H Hs. rewrite (C2 H Hs). repeat split.
  - intros H Hs. rewrite (C3 H Hs).
    destruct (render_counts complete
                (reveal (set_images (listed <$> shown response) blank)))
      as (B1 & B2 & B3 & B4 & B5 & _).
    cbv zeta in *. cbn [href preloaderHidden containerHidden images bands
                        eventListeners setupEventListeners].
    rewrite B1, B2, B3, B4, B5.
    repeat split; reflexivity.
Qed.

Lemma onImgReady_formula (base : nat) (p : page) :
  scrollers p = (base + (loaded p + 1 - total p))%nat ->
  scrollers (onImgReady p)
  = (base + (loaded (onImgReady p) + 1 - total p))%nat.
Proof.
  unfold onImgReady. cbn.
  destruct (total p <=? S (loaded p))%nat eqn:T; cbn;
    [apply Nat.leb_le in T | apply Nat.leb_gt in T]; lia.
Qed.

Lemma handle_counts (base : nat) (e : pageEvent) (p : page) :
  scrollers p = (base + (loaded p + 1 - total p))%nat ->
  let q := handle e p in
  total q = total p
  /\ listening q = listening p
  /\ loaded q
     = (loaded p + length (filter (fun i => i ∈ listening p) (settlings [e])))%nat
  /\ scrollers q = (base + (loaded q + 1 - total p))%nat.
Proof.
  intros Hs. destruct e; cbn -[onImgReady];
    try (repeat match goal with
                | |- context [if ?c then _ else _] => destruct c
                | |- context [match imageAt ?b ?g ?k ?p with _ => _ end] =>
                    destruct (imageAt b g k p)
                end;
         cbn; rewrite Nat.add_0_r; repeat split; try reflexivity; exact Hs).
  case_decide.
  - pose proof (onImgReady_formula base p Hs) as F.
    destruct (onImgReady_counts p)
      as (_ & _ & _ & _ & _ & A6 & _ & _ & A9 & A10 & _).
    cbv zeta in *. rewrite A6, A9, A10 in *. cbn [length].
    repeat split; try reflexivity; lia.
  - cbn. rewrite Nat.add_0_r. repeat split; try reflexivity; exact Hs.
Qed.

Lemma settlings_cons (e : pageEvent) (es : list pageEvent) :
  settlings (e :: es) = settlings [e] ++ settlings es.
Proof. unfold settlings. cbn. now rewrite app_nil_r. Qed.

Lemma browse_counts (base : nat) (es : list pageEvent) (p : page) :
  scrollers p = (base + (loaded p + 1 - total p))%nat ->
  let q := browse es p in
  total q = total p
  /\ listening q = listening p
  /\ loaded q
     = (loaded p + length (filter (fun i => i ∈ listening p) (settlings es)))%nat
  /\ scrollers q = (base + (loaded q + 1 - total p))%nat.
Proof.
  revert p. induction es as [| e es IH]; intros p Hs.
  - cbn. rewrite Nat.add_0_r. repeat split; try reflexivity; exact Hs.
  - destruct (handle_counts base e p Hs) as (A1 & A2 & A3 & A4).
    cbv zeta in *. rewrite <- A1 in A4.
    destruct (IH (handle e p) A4) as (B1 & B2 & B3 & B4).
    change (browse (e :: es) p) with (browse es (handle e p)).
    rewrite settlings_cons, filter_app, length_app.
    rewrite B1, B2, B3, A1, A2, A3 in *.
    repeat split; try reflexivity; lia.
Qed.

(** X15: [setupAutoScroll] is not called before every image of the middle
    band has settled, whatever else happens on the page meanwhile: the
    images already complete at render time count at once, the others when
    their [load] or [error] arrives.  When each waiting image settles
    once, it is called exactly once; a band without images calls it at
    render time.  The number of images waited for is the number of paths
    of the gallery. *)
Theorem scroller_starts_once_middle_band_settled (complete : nat -> bool)
    (es : list pageEvent) (p : page) :
  let r := renderHorizontalScroll complete p in
  let q := browse es r in
  total r = length (galleryPaths p)
  /\ (loaded r + length (listening r) = total r)%nat
  /\ loaded q
     = (loaded r
        + length (filter (fun i => i ∈ listening r) (settlings es)))%nat
  /\ scrollers q = (scrollers p + (loaded q + 1 - total r))%nat
  /\ ((loaded q < total r)%nat -> scrollers q = scrollers p)
  /\ (settlings es ≡ₚ listening r -> scrollers q = S (scrollers p)).
Proof.
  intros r q.
  destruct (render_counts complete p)
    as (_ & _ & _ & _ & _ & R6 & _ & _ & R9 & R10 & R11).
  cbv zeta in *. fold r in R6, R9, R10, R11.
  destruct (browse_counts (scrollers p) es r R11) as (_ & _ & B3 & B4).
  cbv zeta in *. fold q in B3, B4.
  assert (Hsplit : (loaded r + length (listening r) = total r)%nat).
  { rewrite R9, R10, R6.
    assert (G : forall l : list nat,
              (length (filter (fun i => complete i = true) l)
               + length (filter (fun i => complete i = false) l)
               = length l)%nat).
    { induction l as [| i l IH]; [reflexivity |].
      rewrite !filter_cons. destruct (complete i);
        [rewrite decide_True, decide_False by (reflexivity || discriminate)
        |rewrite decide_False, decide_True by (reflexivity || discriminate)];
        cbn [length]; lia. }
    rewrite G. apply length_seq. }
  split.
  { rewrite R6. unfold galleryPaths, buildSet.
    rewrite !length_concat. f_equal.
    rewrite !map_map. apply map_ext. intros e. apply length_imap. }
  split; [exact Hsplit |].
  split; [exact B3 |]. split; [exact B4 |].
  split; [intros H; rewrite B4; lia |].
  intros Hperm. rewrite B4, B3.
  assert (E : forall l : list nat,
            (forall i, i ∈ l -> i ∈ listening r) ->
            filter (fun i => i ∈ listening r) l = l).
  { induction l as [| i l IH]; intros Hl; [reflexivity |].
    rewrite filter_cons, decide_True by (apply Hl; left).
    f_equal. apply IH. intros j Hj. apply Hl. now right. }
  rewrite E by (intros i Hi; now rewrite <- Hperm).
  rewrite Hperm. lia.
Qed.

(** *** The lightbox *)

Lemma buildSet_sources (images : list Entry.t) (g k : nat) (image : img) :
  (group ← buildSet images !! g; group !! k) = Some image ->
  src image ∈ concat (Entry.images <$> images).
Proof.
  unfold buildSet. rewrite list_lookup_fmap.
  destruct (images !! g) as [entry |] eqn:Hg; [| discriminate].
  cbn. rewrite list_lookup_imap.
  destruct (Entry.images entry !! k) as [source |] eqn:Hk; [| discriminate].
  cbn. intros [= <-]. cbn.
  apply list_elem_of_In, in_concat. exists (Entry.images entry). split.
  - apply list_elem_of_In, list_elem_of_fmap. exists entry. split; [reflexivity |].
    now apply list_elem_of_lookup_2 in Hg.
  - apply list_elem_of_In. now apply list_elem_of_lookup_2 in Hk.
Qed.

Lemma handle_lightbox (paths : list string) (e : pageEvent) (p : page) :
  (forall b g k image, imageAt b g k p = Some image -> src image ∈ paths) ->
  (lightboxHidden p = false -> lightboxSrc p ∈ paths /\ bands p <> []) ->
  let q := handle e p in
  bands q = bands p /\ eventListeners q = eventListeners p
  /\ (lightboxHidden q = false -> lightboxSrc q ∈ paths /\ bands q <> []).
Proof.
  intros Hdom Hinv.
  assert (Hsame : bands p = bands p /\ eventListeners p = eventListeners p
                  /\ (lightboxHidden p = false ->
                      lightboxSrc p ∈ paths /\ bands p <> [])).
  { split; [reflexivity |]. split; [reflexivity | exact Hinv]. }
  assert (Hclose : bands (closeLightbox p) = bands p
                   /\ eventListeners (closeLightbox p) = eventListeners p
                   /\ (lightboxHidden (closeLightbox p) = false ->
                       lightboxSrc (closeLightbox p) ∈ paths
                       /\ bands (closeLightbox p) <> [])).
  { split; [reflexivity |]. split; [reflexivity | discriminate]. }
  destruct e; cbn -[onImgReady closeLightbox].
  - destruct (eventListeners p) eqn:E;
      (split; [reflexivity |]; split; [exact E | exact Hinv]).
  - destruct (eventListeners p) eqn:E;
      (split; [reflexivity |]; split; [exact E |]);
      [discriminate | exact Hinv].
  - destruct (_ && _); [exact Hclose | exact Hsame].
  - destruct (_ && _); [exact Hclose | exact Hsame].
  - destruct (imageAt b g k p) as [image |] eqn:Hi; [| exact Hsame].
    split; [reflexivity |]. split; [reflexivity |]. intros _. cbn. split.
    + now apply (Hdom b g k).
    + intros E. unfold imageAt in Hi. rewrite E in Hi. discriminate.
  - case_decide; [| exact Hsame].
    destruct (onImgReady_counts p)
      as (_ & _ & _ & _ & A5 & _ & A7 & A8 & _).
    cbv zeta in *. rewrite A5, A7, A8.
    assert (E : eventListeners (onImgReady p) = eventListeners p).
    { unfold onImgReady. cbn. now destruct (_ <=? _)%nat. }
    rewrite E. exact Hsame.
Qed.

(** What [init] leaves: a closed lightbox, and either the three bands of
    the listed commissions or no band at all; without the listeners of
    [setupEventListeners] there is no band. *)
Lemma init_page (response : fetched) (complete : nat -> bool) :
  let p := init response complete in
  let band := buildSet (listed <$> shown response) in
  lightboxHidden p = true
  /\ (bands p = [] \/ bands p = [band; band; band])
  /\ (eventListeners p = false -> bands p = []).
Proof.
  destruct (init_cases response complete) as (C1 & C2 & C3).
  cbv zeta in *.
  destruct (throws response) eqn:T.
  - destruct (C1 eq_refl) as (images' & ->).
    split; [reflexivity |]. split; [now left | reflexivity].
  - destruct (decide (shown response = [])) as [Hs | Hs].
    + rewrite (C2 eq_refl Hs).
      split; [reflexivity |]. split; [now left | reflexivity].
    + rewrite (C3 eq_refl Hs).
      destruct (render_counts complete
                  (reveal (set_images (listed <$> shown response) blank)))
        as (_ & _ & _ & B4 & B5 & _ & B7 & _).
      cbv zeta in *.
      cbn [lightboxHidden bands eventListeners setupEventListeners].
      rewrite B5, B7.
      split; [reflexivity |]. split; [now right | discriminate].
Qed.

Lemma init_sources (response : fetched) (complete : nat -> bool)
    (b g k : nat) (image : img) :
  imageAt b g k (init response complete) = Some image ->
  src image ∈ concat (Entry.images <$> (listed <$> shown response)).
Proof.
  destruct (init_page response complete) as (_ & [E | E] & _);
    cbv zeta in E; unfold imageAt; rewrite E.
  - discriminate.
  - destruct b as [| [| [| b]]]; cbn -[buildSet]; try discriminate;
      apply buildSet_sources.
Qed.

(** X16: whatever happens on the page, an open lightbox shows an image of
    the gallery, namely the image [k.webp] of a listed commission with
    [k] from 1 to the integer part of its [imageCount]; the close button,
    a click on the backdrop and the Escape key hide it, while a click on
    the picture inside it changes nothing. *)
Theorem lightbox_shows_gallery_images (response : fetched)
    (complete : nat -> bool) (es : list pageEvent) :
  let p := browse es (init response complete) in
  (lightboxHidden p = false ->
     exists c k,
       c ∈ shown response
       /\ (1 <= k <= Qfloor (default 0%Q (Data.imageCount c)))%Z
       /\ lightboxSrc p
          = imagePath ("data/commission/" +:+ Data.slug c +:+ "/") k)
  /\ lightboxHidden (handle CloseClick p) = true
  /\ lightboxHidden (handle (LightboxClick "lightbox") p) = true
  /\ lightboxHidden (handle (KeyDown "Escape") p) = true
  /\ (forall targetId, targetId <> "lightbox" ->
        handle (LightboxClick targetId) p = p).
Proof.
  intros p.
  set (paths := concat (Entry.images <$> (listed <$> shown response))).
  destruct (init_page response complete) as (I0 & _ & I2). cbv zeta in *.
  assert (Hinv : bands p = bands (init response complete)
                 /\ eventListeners p = eventListeners (init response complete)
                 /\ (lightboxHidden p = false ->
                     lightboxSrc p ∈ paths /\ bands p <> [])).
  { subst p. induction es as [| e es IH] using rev_ind.
    - cbn [browse fold_left]. split; [reflexivity |].
      split; [reflexivity |]. rewrite I0. discriminate.
    - unfold browse in *. rewrite fold_left_app. cbn [fold_left].
      destruct IH as (J1 & J2 & J3).
      set (q := fold_left _ es _) in *.
      destruct (handle_lightbox paths e q) as (H1 & H2 & H3).
      + intros b g k image Hi.
        apply (init_sources response complete b g k).
        unfold imageAt in *. now rewrite <- J1.
      + exact J3.
      + cbv zeta in *. split; [now rewrite H1 |].
        split; [now rewrite H2 | exact H3]. }
  destruct Hinv as (K1 & K2 & Hsrc).
  assert (Hclosed : eventListeners p = false -> lightboxHidden p = true).
  { intros E. destruct (lightboxHidden p) eqn:Hh; [reflexivity |].
    destruct (Hsrc eq_refl) as (_ & Hb). exfalso. apply Hb.
    rewrite K1. apply I2. now rewrite <- K2. }
  split.
  { intros Hopen. destruct (Hsrc Hopen) as (Hin & _).
    subst paths.
    apply list_elem_of_In, in_concat in Hin.
    destruct Hin as (l & Hl & Hin).
    apply list_elem_of_In in Hl. rewrite <- list_fmap_compose in Hl.
    apply list_elem_of_fmap in Hl. destruct Hl as (c & -> & Hc).
    apply list_elem_of_In in Hin. cbn in Hin.
    apply list_elem_of_fmap in Hin. destruct Hin as (k & -> & Hk).
    apply elem_of_seqZ in Hk. exists c, k. split; [exact Hc |].
    split; [lia | reflexivity]. }
  split.
  { cbn. destruct (eventListeners p); [reflexivity | now apply Hclosed]. }
  split.
  { cbn. destruct (eventListeners p); cbn; [reflexivity | now apply Hclosed]. }
  split.
  { cbn. destruct (eventListeners p) eqn:E; cbn.
    - now destruct (lightboxHidden p) eqn:Hh; cbn; rewrite ?Hh.
    - now apply Hclosed. }
  intros targetId Hne. cbn.
  apply String.eqb_neq in Hne. rewrite Hne.
  now rewrite andb_false_r.
Qed.

(** ** Closed instances of the further properties *)



Lemma scroll_burst_is_debounced_witness :
  localStorage
    (exec Sample.String ScrollEvent
       (run Sample.String [UserScroll 999; ScrollEvent; UserScroll 1200]
          (run Sample.String []
             (snd (setupBody Sample.Number
                     (initial 1000 0 (Sample.storage None false false) 1))))))
  = localStorage
      (run Sample.String []
         (snd (setupBody Sample.Number
                 (initial 1000 0 (Sample.storage None false false) 1)))).
Proof.
  assert (Hb : Forall is_scrolling [UserScroll 999; ScrollEvent; UserScroll 1200]).
  { constructor; [exact I |]. constructor; [exact I |].
    constructor; [exact I |]. constructor. }
  pose proof (scroll_burst_is_debounced Sample.Number Sample.String
                1000 0 (Sample.storage None false false) 1 []
                [UserScroll 999; ScrollEvent; UserScroll 1200]) as H.
  cbv zeta in H. apply H; [exact Hb | vm_compute; reflexivity].
Defined.

Lemma zero_width_scroller_is_inert_witness :
  written
    (run Sample.String [Frame 16; UserScroll 5; ScrollEvent]
       (snd (setupBody Sample.Number
               (initial 0 0 (Sample.storage (Some "250") false false) 1))))
  = [].
Proof.
  assert (Hw : 0 <= 0) by discriminate.
  assert (Hes : Forall measures_no_width [Frame 16; UserScroll 5; ScrollEvent]).
  { constructor; [exact I |]. constructor; [exact I |].
    constructor; [exact I |]. constructor. }
  pose proof (zero_width_scroller_is_inert Sample.Number Sample.String
                0 0 (Sample.storage (Some "250") false false) 1
                [Frame 16; UserScroll 5; ScrollEvent] Hw Hes) as H.
  cbv zeta in H. exact (proj1 H).
Defined.

Lemma offset_stays_in_band_in_binary64_witness :
  0 <= savedPos
         (Double.run Sample.String
            [UserScroll 2999; ScrollEvent; Frame 16; Resize 2000]
            (snd (Double.setupBody Sample.Number
                    (initial 1000 0 (Sample.storage (Some "250") false false)
                       1))))
  /\ savedPos
       (Double.run Sample.String
          [UserScroll 2999; ScrollEvent; Frame 16; Resize 2000]
          (snd (Double.setupBody Sample.Number
                  (initial 1000 0 (Sample.storage (Some "250") false false)
                     1))))
     < 2000.
Proof.
  pose proof (offset_stays_in_band_in_binary64 Sample.Number Sample.String
                1000 0 (Sample.storage (Some "250") false false) 1
                [UserScroll 2999; ScrollEvent; Frame 16; Resize 2000]) as H.
  cbv zeta in H. apply H. vm_compute. reflexivity.
Defined.

Lemma tick_advances_in_binary64_witness :
  (paused (Sample.scroller false 990 1990) = false
   /\ 0 < setWidth (Sample.scroller false 990 1990))
  /\ savedPos (snd (Double.tick 6000 (Sample.scroller false 990 1990))) == 20
  /\ scrollLeft (snd (Double.tick 6000 (Sample.scroller false 990 1990)))
     == 1020.
Proof.
  assert (Hp : paused (Sample.scroller false 990 1990) = false)
    by reflexivity.
  assert (Hw : 0 < setWidth (Sample.scroller false 990 1990)) by reflexivity.
  destruct (tick_advances_in_binary64 6000 (Sample.scroller false 990 1990)
              Hp Hw) as (_ & _ & _ & _ & _ & _ & _ & _ & _ & H).
  cbv zeta in H.
  assert (NZ : ~ lastTs (Sample.scroller false 990 1990) == 0)
    by discriminate.
  destruct (H (Qeq_refl _) (Qeq_refl _) NZ eq_refl) as [A B].
  split; [now split |]. split; assumption.
Defined.

Lemma resize_rescales_in_binary64_witness :
  (0 < 2000 /\ 0 < setWidth (Sample.scroller false 500 1500))
  /\ savedPos (snd (Double.onResize 2000 (Sample.scroller false 500 1500)))
     == 1000
  /\ scrollLeft (snd (Double.onResize 2000 (Sample.scroller false 500 1500)))
     == 3000.
Proof.
  assert (Hn : 0 < 2000) by reflexivity.
  assert (Ho : 0 < setWidth (Sample.scroller false 500 1500)) by reflexivity.
  destruct (resize_rescales_in_binary64 2000 (Sample.scroller false 500 1500)
              Hn Ho) as (_ & _ & _ & _ & _ & _ & _ & H).
  cbv zeta in H.
  destruct (H (Qeq_refl _) (Qeq_refl _) (Qeq_refl _)) as [A B].
  split; [now split |]. split; assumption.
Defined.

(** A data file with a commission without images, one with a fractional
    count and one without a title. *)
Example gallery_of_three :
  Entry.images
    <$> images
          (init (Answered true
                   (Json {| Data.commissions :=
                              Data.Items
                                [ Some (Data.mkCommission "owl" (Some "Owl") (Some 2));
                                  Some (Data.mkCommission "fox" None None);
                                  Some (Data.mkCommission "cat" (Some "") (Some (7 # 2))) ] |}))
             (fun _ => false))
  = [ ["data/commission/owl/1.webp"; "data/commission/owl/2.webp"];
      ["data/commission/cat/1.webp"; "data/commission/cat/2.webp";
       "data/commission/cat/3.webp"] ].
Proof. vm_compute. reflexivity. Qed.
